(** * Temperature monitor app: QR identity codec, keypad normalizer,
      numeric parser and threshold classification

    Shallow embedding of
    - [src/utils/qr.ts]            ([buildChillerQrValue], [parseChillerIdFromQr]),
    - [src/components/TempKeypad.tsx] ([normalizeInput]),
    - [app/(app)/logs/add.tsx]     ([parseNumber] and the auto-warning effect),
    together with the ECMAScript built-ins these functions call
    ([String.prototype.trim], [startsWith], [slice], [replace], [split],
    [encodeURIComponent], [decodeURIComponent], [Number], [Number.isFinite]
    and the relational operators on numbers). *)

From Stdlib Require Import String Ascii.
From Stdlib Require Import List NArith ZArith Bool Lia.
From Stdlib Require Import Floats.SpecFloat.
Import ListNotations.

Local Open Scope N_scope.

(* ================================================================== *)
(** * ECMAScript strings and the built-ins used by the application     *)
(* ================================================================== *)

Module JS.

(** A JavaScript string is a finite sequence of UTF-16 code units. *)
Definition code_unit := N.
Definition jsstring := list code_unit.

(** String literals of the source, written as Rocq strings. *)
Definition lit (s : string) : jsstring :=
  map N_of_ascii (list_ascii_of_string s).

Fixpoint eqb (s t : jsstring) : bool :=
  match s, t with
  | [], [] => true
  | a :: s', b :: t' => (a =? b) && eqb s' t'
  | _, _ => false
  end.

(** ** Abrupt completions

    The only exception the modelled built-ins raise is [URIError]. *)
Inductive error := URIError.

Inductive completion (A : Type) :=
| Normal (a : A)
| Throw (e : error).
Arguments Normal {A} a.
Arguments Throw {A} e.

Definition bind {A B} (c : completion A) (k : A -> completion B) : completion B :=
  match c with
  | Normal a => k a
  | Throw e => Throw e
  end.

Definition cmap {A B} (f : A -> B) (c : completion A) : completion B :=
  bind c (fun a => Normal (f a)).

(** ** Character classes *)

Definition is_digit (c : code_unit) : bool := (48 <=? c) && (c <=? 57).
Definition is_upper (c : code_unit) : bool := (65 <=? c) && (c <=? 90).
Definition is_lower (c : code_unit) : bool := (97 <=? c) && (c <=? 122).
Definition is_alnum (c : code_unit) : bool := is_digit c || is_upper c || is_lower c.

Definition ch_percent : code_unit := 37.
Definition ch_plus    : code_unit := 43.
Definition ch_comma   : code_unit := 44.
Definition ch_minus   : code_unit := 45.
Definition ch_dot     : code_unit := 46.
Definition ch_under   : code_unit := 95.

(** [WhiteSpace] and [LineTerminator] code points (ECMA-262, 12.2 and
    12.3): TAB, LF, VT, FF, CR, SP, NBSP, the [Zs] category, LS, PS and
    ZWNBSP. *)
Definition is_white_space (c : code_unit) : bool :=
  ((9 <=? c) && (c <=? 13))
  || (c =? 0x20) || (c =? 0xA0) || (c =? 0x1680)
  || ((0x2000 <=? c) && (c <=? 0x200A))
  || (c =? 0x2028) || (c =? 0x2029) || (c =? 0x202F)
  || (c =? 0x205F) || (c =? 0x3000) || (c =? 0xFEFF).

Definition not_ws (c : code_unit) : Prop := is_white_space c = false.

(** Code units of the ASCII range. *)
Definition ascii_unit (c : code_unit) : Prop := c < 128.

(** Number of occurrences of a code unit. *)
Definition occurrences (c : code_unit) (s : jsstring) : nat :=
  count_occ N.eq_dec s c.

(** ** [String.prototype.trim] *)

Fixpoint trimStart (s : jsstring) : jsstring :=
  match s with
  | [] => []
  | c :: r => if is_white_space c then trimStart r else s
  end.

Definition trimEnd (s : jsstring) : jsstring := rev (trimStart (rev s)).

Definition trim (s : jsstring) : jsstring := trimEnd (trimStart s).

(** ** [startsWith], [slice(n)], [replace], [split], [join] *)

Fixpoint startsWith (s p : jsstring) {struct p} : bool :=
  match p, s with
  | [], _ => true
  | a :: p', b :: s' => (a =? b) && startsWith s' p'
  | _ :: _, [] => false
  end.

(** [s.slice(n)] for [0 <= n]. *)
Definition slice_from (n : nat) (s : jsstring) : jsstring := skipn n s.

(** [s.replace(c, by)] with a one-character string pattern: only the
    first occurrence is replaced. *)
Fixpoint replace_first (c : code_unit) (by_ : jsstring) (s : jsstring) : jsstring :=
  match s with
  | [] => []
  | x :: r => if x =? c then by_ ++ r else x :: replace_first c by_ r
  end.

(** [s.replace(/[class]/g, by)] with a character-class pattern and the
    global flag: every matching code unit is replaced. *)
Fixpoint replace_all (cls : code_unit -> bool) (by_ : jsstring) (s : jsstring) : jsstring :=
  match s with
  | [] => []
  | x :: r => if cls x then by_ ++ replace_all cls by_ r
              else x :: replace_all cls by_ r
  end.

(** [s.split(sep)] with a one-character separator. *)
Fixpoint split (sep : code_unit) (s : jsstring) : list jsstring :=
  match s with
  | [] => [[]]
  | c :: r =>
      if c =? sep then [] :: split sep r
      else match split sep r with
           | h :: t => (c :: h) :: t
           | [] => [[c]]
           end
  end.

(** [parts.join("")]. *)
Definition join_empty (parts : list jsstring) : jsstring := concat parts.

(** ** [encodeURIComponent] (ECMA-262, 19.2.6) *)

(** [uriUnescaped] plus nothing else: alphanumerics and [-_.!~*'()]. *)
Definition uriUnescaped (c : code_unit) : bool :=
  is_alnum c
  || (c =? 45) || (c =? 95) || (c =? 46) || (c =? 33) || (c =? 126)
  || (c =? 42) || (c =? 39) || (c =? 40) || (c =? 41).

Definition is_lead_surrogate (c : code_unit) : bool := (0xD800 <=? c) && (c <=? 0xDBFF).
Definition is_trail_surrogate (c : code_unit) : bool := (0xDC00 <=? c) && (c <=? 0xDFFF).

Definition hex_digit_upper (n : N) : code_unit :=
  if n <? 10 then 48 + n else 55 + n.

Definition percent_octet (b : N) : jsstring :=
  [ch_percent; hex_digit_upper (b / 16); hex_digit_upper (b mod 16)].

Definition utf8_octets (cp : N) : list N :=
  if cp <? 0x80 then [cp]
  else if cp <? 0x800 then
    [N.lor 0xC0 (N.shiftr cp 6); N.lor 0x80 (N.land cp 0x3F)]
  else if cp <? 0x10000 then
    [N.lor 0xE0 (N.shiftr cp 12);
     N.lor 0x80 (N.land (N.shiftr cp 6) 0x3F);
     N.lor 0x80 (N.land cp 0x3F)]
  else
    [N.lor 0xF0 (N.shiftr cp 18);
     N.lor 0x80 (N.land (N.shiftr cp 12) 0x3F);
     N.lor 0x80 (N.land (N.shiftr cp 6) 0x3F);
     N.lor 0x80 (N.land cp 0x3F)].

Definition escape_code_point (cp : N) : jsstring :=
  flat_map percent_octet (utf8_octets cp).

Definition surrogate_pair_to_code_point (lead trail : code_unit) : N :=
  (lead - 0xD800) * 0x400 + (trail - 0xDC00) + 0x10000.

(** The abstract operation [Encode(string, unescapedSet)]. *)
Fixpoint Encode (unescaped : code_unit -> bool) (s : jsstring) : completion jsstring :=
  match s with
  | [] => Normal []
  | c :: r =>
      if unescaped c then cmap (cons c) (Encode unescaped r)
      else if is_trail_surrogate c then Throw URIError
      else if is_lead_surrogate c then
        match r with
        | d :: r' =>
            if is_trail_surrogate d then
              cmap (app (escape_code_point (surrogate_pair_to_code_point c d)))
                   (Encode unescaped r')
            else Throw URIError
        | [] => Throw URIError
        end
      else cmap (app (escape_code_point c)) (Encode unescaped r)
  end.

Definition encodeURIComponent (s : jsstring) : completion jsstring :=
  Encode uriUnescaped s.

(** ** [decodeURIComponent] (ECMA-262, 19.2.6) *)

Definition hex_value (c : code_unit) : option N :=
  if is_digit c then Some (c - 48)
  else if (65 <=? c) && (c <=? 70) then Some (c - 55)
  else if (97 <=? c) && (c <=? 102) then Some (c - 87)
  else None.

(** Number of leading 1 bits of an octet, capped at 5. *)
Definition leading_ones (b : N) : nat :=
  if b <? 0x80 then 0%nat
  else if b <? 0xC0 then 1%nat
  else if b <? 0xE0 then 2%nat
  else if b <? 0xF0 then 3%nat
  else if b <? 0xF8 then 4%nat
  else 5%nat.

Definition is_continuation (b : N) : bool := (0x80 <=? b) && (b <? 0xC0).

(** The code point encoded by a complete octet sequence, when the
    sequence is valid UTF-8 (shortest form, no surrogate, at most
    U+10FFFF). *)
Definition utf8_code_point (octets : list N) : option N :=
  match octets with
  | [b0; b1] =>
      let cp := N.land b0 0x1F * 0x40 + N.land b1 0x3F in
      if is_continuation b1 && (0x80 <=? cp) then Some cp else None
  | [b0; b1; b2] =>
      let cp := N.land b0 0x0F * 0x1000 + N.land b1 0x3F * 0x40 + N.land b2 0x3F in
      if is_continuation b1 && is_continuation b2 && (0x800 <=? cp)
         && negb ((0xD800 <=? cp) && (cp <=? 0xDFFF))
      then Some cp else None
  | [b0; b1; b2; b3] =>
      let cp := N.land b0 0x07 * 0x40000 + N.land b1 0x3F * 0x1000
                + N.land b2 0x3F * 0x40 + N.land b3 0x3F in
      if is_continuation b1 && is_continuation b2 && is_continuation b3
         && (0x10000 <=? cp) && (cp <=? 0x10FFFF)
      then Some cp else None
  | _ => None
  end.

Definition UTF16EncodeCodePoint (cp : N) : jsstring :=
  if cp <? 0x10000 then [cp]
  else [0xD800 + (cp - 0x10000) / 0x400; 0xDC00 + (cp - 0x10000) mod 0x400].

(** The abstract operation [Decode(string, reservedSet)] with the empty
    reserved set.  [need] counts the escaped continuation octets still
    expected and [octets] holds the octets of the sequence read so far;
    outside a multi-octet sequence [need] is [0]. *)
Fixpoint Decode (octets : list N) (need : nat) (s : jsstring) {struct s}
  : completion jsstring :=
  match need with
  | O =>
      match s with
      | [] => Normal []
      | c :: r =>
          if c =? ch_percent then
            match r with
            | h1 :: h2 :: r' =>
                match hex_value h1, hex_value h2 with
                | Some a, Some b =>
                    let B := 16 * a + b in
                    match leading_ones B with
                    | 0%nat => cmap (cons B) (Decode [] 0 r')
                    | 2%nat => Decode [B] 1 r'
                    | 3%nat => Decode [B] 2 r'
                    | 4%nat => Decode [B] 3 r'
                    | _ => Throw URIError
                    end
                | _, _ => Throw URIError
                end
            | _ => Throw URIError
            end
          else cmap (cons c) (Decode [] 0 r)
      end
  | S need' =>
      match s with
      | c :: h1 :: h2 :: r' =>
          if c =? ch_percent then
            match hex_value h1, hex_value h2 with
            | Some a, Some b =>
                let octets' := octets ++ [16 * a + b] in
                match need' with
                | O =>
                    match utf8_code_point octets' with
                    | Some cp => cmap (app (UTF16EncodeCodePoint cp)) (Decode [] 0 r')
                    | None => Throw URIError
                    end
                | S _ => Decode octets' need' r'
                end
            | _, _ => Throw URIError
            end
          else Throw URIError
      | _ => Throw URIError
      end
  end.

Definition decodeURIComponent (s : jsstring) : completion jsstring :=
  Decode [] 0 s.

(** ** Numbers

    A Number is an IEEE 754 binary64 value; [spec_float] carries the
    sign, the 53-bit significand and the exponent, with signed zeros,
    infinities and a single NaN. *)
Definition number := spec_float.
Definition prec : Z := 53.
Definition emax : Z := 1024.

Definition NaN : number := S754_nan.

(** The Number value of a mathematical integer. *)
Definition of_Z (z : Z) : number := binary_normalize prec emax z 0 false.

(** The Number value (round to nearest, ties to even) of
    [(-1)^neg * m * 10^e]. *)
Definition round_decimal (neg : bool) (m : Z) (e : Z) : number :=
  match m with
  | Zpos p =>
      match e with
      | Zneg k =>
          SFdiv prec emax (S754_finite neg p 0)
                (S754_finite false (Pos.pow 10 k) 0)
      | _ => binary_normalize prec emax
               (if neg then Z.opp (m * 10 ^ e) else m * 10 ^ e)%Z 0 neg
      end
  | _ => S754_zero neg
  end.

(** [Number.isFinite] on a Number. *)
Definition Number_isFinite (x : number) : bool :=
  match x with
  | S754_zero _ | S754_finite _ _ _ => true
  | S754_infinity _ | S754_nan => false
  end.

(** [x < y] and [x > y] on Numbers. *)
Definition lt (x y : number) : bool := SFltb x y.
Definition gt (x y : number) : bool := SFltb y x.

(** ** [Number(string)]: the abstract operation [StringToNumber]
    (ECMA-262, 7.1.4.1) *)

Fixpoint span (p : code_unit -> bool) (s : jsstring) : jsstring * jsstring :=
  match s with
  | [] => ([], [])
  | c :: r =>
      if p c then let (a, b) := span p r in (c :: a, b)
      else ([], s)
  end.

Definition is_hex_digit (c : code_unit) : bool :=
  match hex_value c with Some _ => true | None => false end.
Definition is_octal_digit (c : code_unit) : bool := (48 <=? c) && (c <=? 55).
Definition is_binary_digit (c : code_unit) : bool := (48 <=? c) && (c <=? 49).

(** Mathematical value of a digit sequence in the given radix. *)
Definition digits_value (radix : Z) (ds : jsstring) : Z :=
  fold_left
    (fun acc d =>
       (radix * acc + match hex_value d with Some v => Z.of_N v | None => 0 end)%Z)
    ds 0%Z.

(** [ExponentPart?] followed by the end of the literal. *)
Definition parse_ExponentPart (s : jsstring) : option Z :=
  match s with
  | [] => Some 0%Z
  | c :: r =>
      if (c =? 101) || (c =? 69) then
        let '(neg, r1) :=
          match r with
          | sg :: r' =>
              if sg =? ch_plus then (false, r')
              else if sg =? ch_minus then (true, r')
              else (false, r)
          | [] => (false, r)
          end in
        let '(ds, rest) := span is_digit r1 in
        match ds, rest with
        | _ :: _, [] =>
            Some (if neg then Z.opp (digits_value 10 ds) else digits_value 10 ds)
        | _, _ => None
        end
      else None
  end.

(** The mathematical value of a [StrUnsignedDecimalLiteral]. *)
Inductive decimal_mv :=
| MV_Infinity
| MV_Decimal (m : Z) (e : Z).

Definition parse_StrUnsignedDecimalLiteral (s : jsstring) : option decimal_mv :=
  if eqb s (lit "Infinity") then Some MV_Infinity
  else
    let '(ip, r1) := span is_digit s in
    match r1 with
    | c :: r2 =>
        if c =? ch_dot then
          let '(fp, r3) := span is_digit r2 in
          match ip, fp with
          | [], [] => None
          | _, _ =>
              match parse_ExponentPart r3 with
              | Some e =>
                  Some (MV_Decimal (digits_value 10 (ip ++ fp))
                                   (e - Z.of_nat (length fp)))
              | None => None
              end
          end
        else
          match ip with
          | [] => None
          | _ :: _ =>
              match parse_ExponentPart r1 with
              | Some e => Some (MV_Decimal (digits_value 10 ip) e)
              | None => None
              end
          end
    | [] =>
        match ip with
        | [] => None
        | _ :: _ => Some (MV_Decimal (digits_value 10 ip) 0)
        end
    end.

Definition parse_StrDecimalLiteral (s : jsstring) : option (bool * decimal_mv) :=
  match s with
  | c :: r =>
      if c =? ch_plus then option_map (pair false) (parse_StrUnsignedDecimalLiteral r)
      else if c =? ch_minus then option_map (pair true) (parse_StrUnsignedDecimalLiteral r)
      else option_map (pair false) (parse_StrUnsignedDecimalLiteral s)
  | [] => None
  end.

(** [0x], [0o] and [0b] literals (either case of the letter). *)
Definition parse_NonDecimalIntegerLiteral (s : jsstring) : option Z :=
  match s with
  | z :: k :: ((_ :: _) as ds) =>
      if z =? 48 then
        if (k =? 120) || (k =? 88) then
          if forallb is_hex_digit ds then Some (digits_value 16 ds) else None
        else if (k =? 111) || (k =? 79) then
          if forallb is_octal_digit ds then Some (digits_value 8 ds) else None
        else if (k =? 98) || (k =? 66) then
          if forallb is_binary_digit ds then Some (digits_value 2 ds) else None
        else None
      else None
  | _ => None
  end.

Definition StringToNumber (s : jsstring) : number :=
  match trim s with
  | [] => S754_zero false
  | t =>
      match parse_NonDecimalIntegerLiteral t with
      | Some n => of_Z n
      | None =>
          match parse_StrDecimalLiteral t with
          | Some (neg, MV_Infinity) => S754_infinity neg
          | Some (neg, MV_Decimal m e) => round_decimal neg m e
          | None => NaN
          end
      end
  end.

(** ** More string built-ins: [includes], [slice(0, -1)], [slice(0, n)]
    and [replace] with a [+] quantifier *)

(** [s.includes(c)] with a one-character argument. *)
Definition includes (s : jsstring) (c : code_unit) : bool :=
  existsb (fun x => x =? c) s.

(** [s.slice(0, -1)]: all but the last code unit. *)
Definition slice_drop_last (s : jsstring) : jsstring := removelast s.

(** [s.slice(0, n)] for [0 <= n]. *)
Definition slice_to (n : nat) (s : jsstring) : jsstring := firstn n s.

(** [s.replace(/[class]+/g, by)]: every maximal run of code units of the
    class is replaced by one copy of [by]; the copy is emitted at the
    last unit of the run. *)
Fixpoint replace_runs (cls : code_unit -> bool) (by_ : jsstring) (s : jsstring)
  : jsstring :=
  match s with
  | [] => []
  | c :: r =>
      if cls c then
        match r with
        | d :: _ => if cls d then replace_runs cls by_ r
                    else by_ ++ replace_runs cls by_ r
        | [] => by_
        end
      else c :: replace_runs cls by_ r
  end.

End JS.

(* ================================================================== *)
(** * src/utils/qr.ts                                                  *)
(* ================================================================== *)

Module Qr.
Import JS.

Definition QR_PREFIX : jsstring := lit "temp-monitor://chiller/".

(** [`${QR_PREFIX}${encodeURIComponent(chillerId)}`] *)
Definition buildChillerQrValue (chillerId : jsstring) : completion jsstring :=
  cmap (app QR_PREFIX) (encodeURIComponent chillerId).

(** [/^[a-zA-Z0-9_-]{10,}$/.test(s)] *)
Definition is_token_char (c : code_unit) : bool :=
  is_alnum c || (c =? ch_under) || (c =? ch_minus).

Definition raw_id_test (s : jsstring) : bool :=
  forallb is_token_char s && (10 <=? length s)%nat.

(** [x || null] on a string: the empty string is falsy. *)
Definition or_null (s : jsstring) : option jsstring :=
  match s with
  | [] => None
  | _ :: _ => Some s
  end.

Definition parseChillerIdFromQr (value : jsstring) : completion (option jsstring) :=
  let s := trim value in
  if startsWith s QR_PREFIX then
    let id := slice_from (length QR_PREFIX) s in
    bind (decodeURIComponent id) (fun d => Normal (or_null (trim d)))
  else if raw_id_test s then Normal (Some s)
  else Normal None.

End Qr.


(* ================================================================== *)
(** * src/components/TempKeypad.tsx                                    *)
(* ================================================================== *)

Module TempKeypad.
Import JS.

Inductive Mode := signed_decimal | unsigned_decimal.

Definition Mode_eqb (a b : Mode) : bool :=
  match a, b with
  | signed_decimal, signed_decimal => true
  | unsigned_decimal, unsigned_decimal => true
  | _, _ => false
  end.

(** The class [[^0-9\-.]]. *)
Definition not_digit_minus_dot (c : code_unit) : bool :=
  negb (is_digit c || (c =? ch_minus) || (c =? ch_dot)).

Definition normalizeInput (raw : jsstring) (mode : Mode) : jsstring :=
  let s := replace_all (fun c => c =? ch_comma) [ch_dot] raw in
  let s := replace_all not_digit_minus_dot [] s in
  let allowMinus := Mode_eqb mode signed_decimal in
  let startsMinus := startsWith s [ch_minus] in
  let s := replace_all (fun c => c =? ch_minus) [] s in
  let s := if allowMinus && startsMinus then ch_minus :: s else s in
  let parts := split ch_dot s in
  if (2 <? length parts)%nat
  then hd [] parts ++ [ch_dot] ++ join_empty (tl parts)
  else s.

(** The two statements that handle the decimal point, as a function of
    the string they act on. *)
Definition collapse_dots (s : jsstring) : jsstring :=
  let parts := split ch_dot s in
  if (2 <? length parts)%nat
  then hd [] parts ++ [ch_dot] ++ join_empty (tl parts)
  else s.

(** The label of the sign key, U+00B1. *)
Definition ch_plus_minus : code_unit := 177.

(** [/^\d$/.test(ch)] *)
Definition is_one_digit (ch : jsstring) : bool :=
  match ch with
  | [c] => is_digit c
  | _ => false
  end.

Definition appendChar (current ch : jsstring) (mode : Mode) : jsstring :=
  let cur := current in
  if eqb ch [ch_plus_minus] then
    if negb (Mode_eqb mode signed_decimal) then cur
    else
      match cur with
      | [] => [ch_minus]
      | _ :: _ =>
          if startsWith cur [ch_minus] then slice_from 1 cur
          else ch_minus :: cur
      end
  else if eqb ch [ch_dot] then
    match cur with
    | [] => lit "0."
    | _ :: _ => if includes cur ch_dot then cur else cur ++ [ch_dot]
    end
  else if is_one_digit ch then cur ++ ch
  else cur.

Definition backspace (current : jsstring) : jsstring :=
  match current with
  | [] => []
  | _ :: _ => slice_drop_last current
  end.

(** The [onPress] handlers of the component: what is passed to
    [onChange] when the key labelled [k] is pressed, and when the
    backspace key is pressed. *)
Definition pressKey (value k : jsstring) (mode : Mode) : jsstring :=
  normalizeInput (appendChar value k mode) mode.

Definition pressBackspace (value : jsstring) (mode : Mode) : jsstring :=
  normalizeInput (backspace value) mode.

(** The keys of the pad.  The sign key is rendered in signed mode only;
    in unsigned mode its place holds an inert placeholder. *)
Inductive Key :=
| KeyDigit (d : code_unit)
| KeyPoint
| KeySign
| KeyBackspace.

Definition press (mode : Mode) (value : jsstring) (k : Key) : jsstring :=
  match k with
  | KeyDigit d => pressKey value [d] mode
  | KeyPoint => pressKey value [ch_dot] mode
  | KeySign =>
      match mode with
      | signed_decimal => pressKey value [ch_plus_minus] mode
      | unsigned_decimal => value
      end
  | KeyBackspace => pressBackspace value mode
  end.

Definition pressAll (mode : Mode) (value : jsstring) (ks : list Key) : jsstring :=
  fold_left (press mode) ks value.

End TempKeypad.

(* ================================================================== *)
(** * app/(app)/logs/add.tsx                                           *)
(* ================================================================== *)

Module AddLog.
Import JS.

Inductive Status := ok | warning | damaged.

Definition Status_eqb (a b : Status) : bool :=
  match a, b with
  | ok, ok | warning, warning | damaged, damaged => true
  | _, _ => false
  end.

(** The fields of [Chiller] the effect reads; [None] stands for [null]
    and [undefined]. *)
Record Chiller := {
  minTemp : option number;
  maxTemp : option number
}.

(** [number | null | "nan"] *)
Inductive parsed :=
| Null
| Nan
| Num (n : number).

Definition parseNumber (val : jsstring) : parsed :=
  let t := trim val in
  match t with
  | [] => Null
  | _ :: _ =>
      if eqb t (lit "-") || eqb t (lit ".") || eqb t (lit "-.") then Nan
      else
        let normalized := replace_first ch_comma [ch_dot] t in
        let n := StringToNumber normalized in
        if negb (Number_isFinite n) then Nan else Num n
  end.

(** The threshold part of the effect, reached once the temperature has
    parsed and the status is not [damaged]. *)
Definition classifyRange (ch : Chiller) (t : number) : Status :=
  match minTemp ch, maxTemp ch with
  | None, None => ok
  | min, max =>
      let isLow := match min with Some m => lt t m | None => false end in
      let isHigh := match max with Some m => gt t m | None => false end in
      if isLow || isHigh then warning else ok
  end.

(** The "auto-warning" [useEffect]: the [status] state after the effect
    has run with the given [chiller], [tempC] and [status]. *)
Definition autoWarningEffect
           (chiller : option Chiller) (tempC : jsstring) (status : Status) : Status :=
  match chiller with
  | None => status
  | Some ch =>
      match parseNumber tempC with
      | Null | Nan => status
      | Num t =>
          if Status_eqb status damaged then status
          else classifyRange ch t
      end
  end.

(** The [onPress] of a status chip, [setStatus(label)]: the [status]
    state after the press.  The auto-warning effect depends on [tempC]
    and [chiller] only, so it does not run again after a press. *)
Definition chipPress (label : Status) (status : Status) : Status := label.

(** The validation steps of [onSave], reached when [user] and [chiller]
    are set: the alert that is shown, or the temperature and humidity
    that are written. *)
Inductive SaveCheck :=
| TemperatureInvalid
| HumidityInvalid
| NoteRequired
| PhotoRequired
| Proceed (t : number) (h : option number).

(** [!x] on [string | null]. *)
Definition is_falsy (x : option jsstring) : bool :=
  match x with
  | None | Some [] => true
  | Some (_ :: _) => false
  end.

Definition onSaveValidation
           (tempC humidity : jsstring) (status : Status)
           (note : jsstring) (photoUri : option jsstring) : SaveCheck :=
  match parseNumber tempC with
  | Null | Nan => TemperatureInvalid
  | Num t =>
      match parseNumber humidity with
      | Nan => HumidityInvalid
      | h =>
          if (Status_eqb status warning || Status_eqb status damaged)
             && is_falsy (Some (trim note))
          then NoteRequired
          else if Status_eqb status damaged && is_falsy photoUri
          then PhotoRequired
          else Proceed t (match h with Num x => Some x | _ => None end)
      end
  end.

End AddLog.


(* ================================================================== *)
(** * Regular expressions, as the specification writes its grammars    *)
(* ================================================================== *)

Module Regex.
Import JS.

Inductive re :=
| Eps
| Chr (cls : code_unit -> bool)
| Cat (a b : re)
| Alt (a b : re)
| Star (a : re).

(** [matches r s]: the whole of [s] is a word of [r]. *)
Inductive matches : re -> jsstring -> Prop :=
| M_Eps : matches Eps []
| M_Chr cls c : cls c = true -> matches (Chr cls) [c]
| M_Cat a b s t : matches a s -> matches b t -> matches (Cat a b) (s ++ t)
| M_AltL a b s : matches a s -> matches (Alt a b) s
| M_AltR a b s : matches b s -> matches (Alt a b) s
| M_Star0 a : matches (Star a) []
| M_StarS a s t : matches a s -> matches (Star a) t -> matches (Star a) (s ++ t).

Definition Opt (r : re) : re := Alt Eps r.

(** [r{n,}] *)
Fixpoint at_least (n : nat) (r : re) : re :=
  match n with
  | O => Star r
  | S k => Cat r (at_least k r)
  end.

Definition one (c : code_unit) : re := Chr (fun x => x =? c).

(** [^[a-zA-Z0-9_-]{10,}$] *)
Definition raw_id_re : re := at_least 10 (Chr Qr.is_token_char).

(** Digits, then optionally a point and digits:
    [[0-9]* ( \. [0-9]* )?], written with spaces. *)
Definition unsigned_buffer_re : re :=
  Cat (Star (Chr is_digit)) (Opt (Cat (one ch_dot) (Star (Chr is_digit)))).

(** The same with an optional leading minus:
    [-? [0-9]* ( \. [0-9]* )?]. *)
Definition signed_buffer_re : re :=
  Cat (Opt (one ch_minus)) unsigned_buffer_re.

(** The grammar of the keypad buffer: the leading minus is part of the
    language only in signed mode. *)
Definition buffer_re (mode : TempKeypad.Mode) : re :=
  match mode with
  | TempKeypad.signed_decimal => signed_buffer_re
  | TempKeypad.unsigned_decimal => unsigned_buffer_re
  end.

(** The first code unit of [raw] that is a digit, a minus, a point or a
    comma is a minus. *)
Fixpoint leading_minus (raw : jsstring) : bool :=
  match raw with
  | [] => false
  | c :: r =>
      if c =? ch_minus then true
      else if is_digit c || (c =? ch_dot) || (c =? ch_comma) then false
      else leading_minus r
  end.

(** Digits and points: what the normalizer keeps besides the sign. *)
Definition digit_or_dot (c : code_unit) : bool := is_digit c || (c =? ch_dot).

(** The same language spelled out: an optional sign (only when
    [allowMinus]), integer digits, and optionally a point followed by
    fraction digits. *)
Definition is_buffer (allowMinus : bool) (s : jsstring) : Prop :=
  exists sign ip frac,
    s = sign ++ ip ++ frac
    /\ (sign = [] \/ (allowMinus = true /\ sign = [ch_minus]))
    /\ forallb is_digit ip = true
    /\ (frac = [] \/ exists fp, frac = ch_dot :: fp /\ forallb is_digit fp = true).

End Regex.

(* ================================================================== *)
(** * Notions used to state the classification                         *)
(* ================================================================== *)

Module Range.
Import JS AddLog.

(** The temperature lies outside a configured bound: [minTemp] is
    present and [t < minTemp], or [maxTemp] is present and
    [t > maxTemp]. *)
Definition out_of_range (ch : Chiller) (t : number) : Prop :=
  (exists m, minTemp ch = Some m /\ lt t m = true)
  \/ (exists m, maxTemp ch = Some m /\ gt t m = true).

(** A chiller with the allowed range 2 to 8. *)
Definition chiller_2_8 : Chiller :=
  {| minTemp := Some (of_Z 2); maxTemp := Some (of_Z 8) |}.

End Range.

(* ================================================================== *)
(** * app/(app)/chillers/[id].tsx: the Min/Max fields of the editor    *)
(* ================================================================== *)

Module ChillerEdit.
Import JS.

(** [number | null]; the result [NaN] marks an unparseable field. *)
Definition parseNumberOrNull (val : jsstring) : option number :=
  let t := trim val in
  match t with
  | [] => None
  | _ :: _ =>
      let normalized := replace_first ch_comma [ch_dot] t in
      let n := StringToNumber normalized in
      if negb (Number_isFinite n) then Some NaN else Some n
  end.

(** [Number.isNaN(x)] on [number | null]. *)
Definition Number_isNaN (x : option number) : bool :=
  match x with
  | Some S754_nan => true
  | _ => false
  end.

(** The Min/Max checks that [canSave] and [onSave] share. *)
Inductive RangeCheck :=
| NotANumber
| MinGreaterThanMax
| RangeOk (min max : option number).

Definition checkRange (minTemp maxTemp : jsstring) : RangeCheck :=
  let min := parseNumberOrNull minTemp in
  let max := parseNumberOrNull maxTemp in
  if Number_isNaN min || Number_isNaN max then NotANumber
  else
    match min, max with
    | Some mn, Some mx => if gt mn mx then MinGreaterThanMax else RangeOk min max
    | _, _ => RangeOk min max
    end.

(** The chiller document fields written on save. *)
Definition savedChiller (min max : option number) : AddLog.Chiller :=
  {| AddLog.minTemp := min; AddLog.maxTemp := max |}.

End ChillerEdit.

(* ================================================================== *)
(** * app/(app)/qr/[id].tsx                                            *)
(* ================================================================== *)

Module QrExport.
Import JS.

(** This screen builds the QR value without percent-encoding. *)
Definition buildChillerQrValue (chillerId : jsstring) : jsstring :=
  lit "temp-monitor://chiller/" ++ chillerId.

(** With the [i] flag the class [[^a-z0-9_-]] excludes the ASCII letters
    of both cases, the digits, the underscore and the hyphen. *)
Definition unsafe_for_file (c : code_unit) : bool := negb (Qr.is_token_char c).

Definition safeNameForFile (name : jsstring) : jsstring :=
  let n := match name with [] => lit "chiller" | _ :: _ => name end in
  slice_to 48
    (replace_runs (fun c => c =? ch_under) [ch_under]
       (replace_runs unsafe_for_file [ch_under] (trim n))).

End QrExport.

(* ================================================================== *)
(** * app/(app)/scan/index.tsx                                         *)
(* ================================================================== *)

Module Scan.
Import JS.

(** What [onScan] does with a scanning result: nothing when a code was
    already handled, the "Invalid QR" alert, or the "Chiller found"
    dialog for an identifier. *)
Inductive ScanOutcome :=
| Ignored
| InvalidQr
| ChillerFound (chillerId : jsstring).

(** [data] is [res?.data]; [None] stands for [undefined] and [null]. *)
Definition onScan (scanned : bool) (data : option jsstring) : completion ScanOutcome :=
  if scanned then Normal Ignored
  else
    let raw := trim (match data with Some d => d | None => [] end) in
    bind (Qr.parseChillerIdFromQr raw)
         (fun chillerId =>
            match chillerId with
            | None | Some [] => Normal InvalidQr
            | Some id => Normal (ChillerFound id)
            end).

End Scan.

(* ================================================================== *)
(** * Notions used to state the behaviour of the keys                  *)
(* ================================================================== *)

Module KeypadNotions.
Import JS TempKeypad.

(** A key press without the sanitizing pass of the handler. *)
Definition pressRaw (mode : Mode) (value : jsstring) (k : Key) : jsstring :=
  match k with
  | KeyDigit d => appendChar value [d] mode
  | KeyPoint => appendChar value [ch_dot] mode
  | KeySign =>
      match mode with
      | signed_decimal => appendChar value [ch_plus_minus] mode
      | unsigned_decimal => value
      end
  | KeyBackspace => backspace value
  end.

(** The keys that carry a digit label. *)
Definition digit_keys (ds : jsstring) : list Key := map KeyDigit ds.

(** The digits before and behind the point are missing. *)
Definition no_digits (ip frac : jsstring) : Prop :=
  ip = [] /\ (frac = [] \/ frac = [ch_dot]).

(** The three buffers that [parseNumber] names as incomplete entries. *)
Definition incomplete_entry (b : jsstring) : Prop :=
  b = lit "-" \/ b = lit "." \/ b = lit "-.".

End KeypadNotions.

(* ================================================================== *)
(** * Notions used to state the behaviour of the export screen         *)
(* ================================================================== *)

Module ExportNotions.
Import JS.

(** No two neighbouring code units of [l] are both [c]. *)
Fixpoint no_double (c : code_unit) (l : jsstring) : bool :=
  match l with
  | a :: ((b :: _) as r) => negb ((a =? c) && (b =? c)) && no_double c r
  | _ => true
  end.

End ExportNotions.

(* ================================================================== *)
(** * Well-formed UTF-16 text                                          *)
(* ================================================================== *)

Module UriNotions.
Import JS.

(** Every surrogate of [s] belongs to a lead-trail pair. *)
Fixpoint well_formed (s : jsstring) : bool :=
  match s with
  | [] => true
  | c :: r =>
      if is_lead_surrogate c then
        match r with
        | d :: r' => is_trail_surrogate d && well_formed r'
        | [] => false
        end
      else negb (is_trail_surrogate c) && well_formed r
  end.

(** Code units are 16-bit values. *)
Definition is_code_unit (c : code_unit) : Prop := c < 0x10000.

(** [f] holds of every number below [n]. *)
Definition all_below (n : nat) (f : N -> bool) : bool :=
  forallb f (map N.of_nat (seq 0 n)).

End UriNotions.

(* ================================================================== *)
(** * Facts about the built-ins                                        *)
(* ================================================================== *)

Module JSFacts.
Import JS.

(** Boolean character-class tests as linear arithmetic. *)
Ltac class_lia :=
  repeat match goal with
    | H : _ && _ = true |- _ => apply andb_true_iff in H; destruct H
    | H : _ || _ = true |- _ => apply orb_true_iff in H; destruct H
    | H : _ && _ = false |- _ => apply andb_false_iff in H; destruct H
    | H : _ || _ = false |- _ => apply orb_false_iff in H; destruct H
    | H : negb _ = true |- _ => apply negb_true_iff in H
    | H : negb _ = false |- _ => apply negb_false_iff in H
    | H : (_ <=? _) = true |- _ => apply N.leb_le in H
    | H : (_ <=? _) = false |- _ => apply N.leb_gt in H
    | H : (_ <? _) = true |- _ => apply N.ltb_lt in H
    | H : (_ <? _) = false |- _ => apply N.ltb_ge in H
    | H : (_ =? _) = true |- _ => apply N.eqb_eq in H
    | H : (_ =? _) = false |- _ => apply N.eqb_neq in H
    end;
  try lia.

(** [b = false] from a refutation of [b = true], and dually. *)
Ltac by_class :=
  match goal with
  | |- ?b = false => destruct b eqn:?; [exfalso | reflexivity]
  | |- ?b = true => destruct b eqn:?; [reflexivity | exfalso]
  end.

Lemma eqb_eq (s t : jsstring) : eqb s t = true <-> s = t.
Proof.
  revert t; induction s as [|a s IH]; intros [|b t]; simpl; split;
    try congruence; try reflexivity.
  - intros H. apply andb_true_iff in H. destruct H as [H1 H2].
    apply N.eqb_eq in H1. apply IH in H2. congruence.
  - intros H. injection H as -> ->. rewrite N.eqb_refl. simpl. now apply IH.
Qed.

(** ** [trim] *)

Lemma trimStart_head s :
  match s with [] => True | c :: _ => not_ws c end -> trimStart s = s.
Proof. destruct s as [|c r]; simpl; [reflexivity|]. intros ->. reflexivity. Qed.

Lemma trimStart_Forall s : Forall not_ws s -> trimStart s = s.
Proof. intros H. apply trimStart_head. destruct H; auto. Qed.

Lemma trim_Forall s : Forall not_ws s -> trim s = s.
Proof.
  intros H. unfold trim, trimEnd.
  rewrite (trimStart_Forall s H).
  rewrite trimStart_Forall; [apply rev_involutive|].
  apply Forall_rev. exact H.
Qed.

Lemma trimStart_all_ws s :
  Forall (fun c => is_white_space c = true) s -> trimStart s = [].
Proof. induction 1 as [|c r Hc _ IH]; simpl; [reflexivity|]. now rewrite Hc. Qed.

Lemma trimStart_nil s :
  trimStart s = [] -> Forall (fun c => is_white_space c = true) s.
Proof.
  induction s as [|c r IH]; simpl; intros H; [constructor|].
  destruct (is_white_space c) eqn:E; [|discriminate].
  constructor; auto.
Qed.

Lemma trimStart_ws_Forall s :
  Forall (fun c => is_white_space c = true) (trimStart s) ->
  Forall (fun c => is_white_space c = true) s.
Proof.
  induction s as [|c r IH]; simpl; intros H; [constructor|].
  destruct (is_white_space c) eqn:E; [constructor; auto|].
  inversion H; subst. congruence.
Qed.

Lemma trim_nil_iff s :
  trim s = [] <-> Forall (fun c => is_white_space c = true) s.
Proof.
  unfold trim, trimEnd. split.
  - intros H. apply (f_equal (@rev code_unit)) in H.
    rewrite rev_involutive in H. simpl in H.
    apply trimStart_nil, Forall_rev in H. rewrite rev_involutive in H.
    now apply trimStart_ws_Forall.
  - intros H. rewrite (trimStart_all_ws s H). reflexivity.
Qed.

Lemma trimStart_In c s : not_ws c -> In c s -> In c (trimStart s).
Proof.
  intros Hc. induction s as [|x r IH]; simpl; [auto|].
  intros [->|Hin].
  - rewrite Hc. now left.
  - destruct (is_white_space x); [auto|now right].
Qed.

Lemma trim_In c s : not_ws c -> In c s -> In c (trim s).
Proof.
  intros Hc Hin. unfold trim, trimEnd.
  apply in_rev. rewrite rev_involutive.
  apply trimStart_In; [exact Hc|].
  apply in_rev. rewrite rev_involutive. now apply trimStart_In.
Qed.

(** ** [startsWith] and [slice] *)

Lemma startsWith_app p r : startsWith (p ++ r) p = true.
Proof. induction p; simpl; [reflexivity|]. now rewrite N.eqb_refl. Qed.

Lemma startsWith_iff s p :
  startsWith s p = true <-> exists r, s = p ++ r.
Proof.
  split.
  - revert s; induction p as [|a p IH]; intros s H; simpl in *.
    + now exists s.
    + destruct s as [|b s]; [discriminate|].
      apply andb_true_iff in H. destruct H as [H1 H2].
      apply N.eqb_eq in H1. subst b.
      destruct (IH _ H2) as [r ->]. now exists r.
  - intros [r ->]. apply startsWith_app.
Qed.

Lemma slice_from_app p r : slice_from (length p) (p ++ r) = r.
Proof. unfold slice_from. induction p; simpl; auto. Qed.

End JSFacts.

(* ================================================================== *)
(** * Percent-encoding of ASCII text                                   *)
(* ================================================================== *)

Module UriFacts.
Import JS JSFacts.

Lemma hex_value_upper n : n < 16 -> hex_value (hex_digit_upper n) = Some n.
Proof.
  intros H. unfold hex_value, hex_digit_upper, is_digit.
  destruct (n <? 10) eqn:E; class_lia.
  - replace (48 <=? 48 + n) with true by (symmetry; apply N.leb_le; lia).
    replace (48 + n <=? 57) with true by (symmetry; apply N.leb_le; lia).
    cbn [andb]. f_equal. lia.
  - replace (55 + n <=? 57) with false by (symmetry; apply N.leb_gt; lia).
    rewrite andb_false_r.
    replace (65 <=? 55 + n) with true by (symmetry; apply N.leb_le; lia).
    replace (55 + n <=? 70) with true by (symmetry; apply N.leb_le; lia).
    cbn [andb]. f_equal. lia.
Qed.

Lemma hex_digit_upper_not_ws n : n < 16 -> not_ws (hex_digit_upper n).
Proof.
  intros H. unfold not_ws, hex_digit_upper.
  destruct (n <? 10) eqn:E; by_class; unfold is_white_space in *; class_lia.
Qed.

Lemma uriUnescaped_not_ws c : uriUnescaped c = true -> not_ws c.
Proof.
  intros H. unfold not_ws. by_class.
  unfold uriUnescaped, is_alnum, is_digit, is_upper, is_lower, is_white_space in *.
  class_lia.
Qed.

Lemma uriUnescaped_not_percent c : uriUnescaped c = true -> (c =? ch_percent) = false.
Proof.
  intros H. by_class.
  unfold uriUnescaped, is_alnum, is_digit, is_upper, is_lower, ch_percent in *.
  class_lia.
Qed.

Lemma percent_octet_not_ws b : b < 256 -> Forall not_ws (percent_octet b).
Proof.
  intros H. unfold percent_octet.
  repeat constructor.
  - apply hex_digit_upper_not_ws. apply N.Div0.div_lt_upper_bound. lia.
  - apply hex_digit_upper_not_ws. apply N.mod_lt. lia.
Qed.

(** One escaped ASCII octet decodes to the code unit it stands for. *)
Lemma Decode_percent_octet c rest :
  ascii_unit c ->
  Decode [] 0 (percent_octet c ++ rest) = cmap (cons c) (Decode [] 0 rest).
Proof.
  unfold ascii_unit. intros H. unfold percent_octet.
  cbn [app Decode]. rewrite N.eqb_refl.
  rewrite !hex_value_upper
    by (try (apply N.Div0.div_lt_upper_bound; lia); apply N.mod_lt; lia).
  replace (16 * (c / 16) + c mod 16) with c by (apply N.div_mod; lia).
  unfold leading_ones.
  replace (c <? 128) with true by (symmetry; apply N.ltb_lt; lia).
  reflexivity.
Qed.

Lemma Encode_ascii_step c r :
  ascii_unit c -> uriUnescaped c = false ->
  Encode uriUnescaped (c :: r) = cmap (app (percent_octet c)) (Encode uriUnescaped r).
Proof.
  unfold ascii_unit. intros H Hu. cbn [Encode]. rewrite Hu.
  replace (is_trail_surrogate c) with false
    by (symmetry; by_class; unfold is_trail_surrogate in *; class_lia).
  replace (is_lead_surrogate c) with false
    by (symmetry; by_class; unfold is_lead_surrogate in *; class_lia).
  unfold escape_code_point, utf8_octets.
  replace (c <? 128) with true by (symmetry; apply N.ltb_lt; lia).
  cbn [flat_map]. rewrite app_nil_r. reflexivity.
Qed.

(** [encodeURIComponent] succeeds on ASCII text; its output contains no
    white space and [decodeURIComponent] maps it back to the input. *)
Lemma encode_decode_ascii x :
  Forall ascii_unit x ->
  exists e,
    encodeURIComponent x = Normal e
    /\ decodeURIComponent e = Normal x
    /\ Forall not_ws e.
Proof.
  unfold encodeURIComponent, decodeURIComponent.
  induction 1 as [|c r Hc _ (e & He & Hd & Hw)].
  - exists []. repeat split; constructor.
  - destruct (uriUnescaped c) eqn:Hu.
    + exists (c :: e). repeat split.
      * cbn [Encode]. rewrite Hu, He. reflexivity.
      * cbn [Decode]. rewrite (uriUnescaped_not_percent c Hu), Hd. reflexivity.
      * constructor; [now apply uriUnescaped_not_ws | exact Hw].
    + exists (percent_octet c ++ e). repeat split.
      * rewrite Encode_ascii_step by assumption. rewrite He. reflexivity.
      * rewrite Decode_percent_octet by assumption. rewrite Hd. reflexivity.
      * apply Forall_app. split; [|exact Hw].
        apply percent_octet_not_ws. unfold ascii_unit in Hc. lia.
Qed.

End UriFacts.

(* ================================================================== *)
(** * Facts about the grammars                                         *)
(* ================================================================== *)

Module RegexFacts.
Import JS Regex.

Lemma star_chr_forallb cls s :
  matches (Star (Chr cls)) s -> forallb cls s = true.
Proof.
  intros H. remember (Star (Chr cls)) as r eqn:Er.
  induction H as [| | | | | |a s t Hs _ Ht IHt]; try discriminate.
  - reflexivity.
  - injection Er as ->. inversion Hs; subst.
    simpl. rewrite IHt by reflexivity. now rewrite andb_true_r.
Qed.

Lemma forallb_star_chr cls s :
  forallb cls s = true -> matches (Star (Chr cls)) s.
Proof.
  induction s as [|c r IH]; simpl; intros H.
  - constructor.
  - apply andb_true_iff in H. destruct H as [Hc Hr].
    change (c :: r) with ([c] ++ r).
    constructor; [now constructor | now apply IH].
Qed.

Lemma cat_chr_inv cls r s :
  matches (Cat (Chr cls) r) s ->
  exists c s', s = c :: s' /\ cls c = true /\ matches r s'.
Proof.
  intros H. inversion H as [| |a b s1 t H1 H2| | | |]; subst.
  inversion H1; subst. simpl. eauto.
Qed.

Lemma at_least_chr_iff n cls s :
  matches (at_least n (Chr cls)) s
  <-> forallb cls s = true /\ (n <= length s)%nat.
Proof.
  revert s; induction n as [|n IH]; intros s; simpl.
  - split.
    + intros H. split; [now apply star_chr_forallb | lia].
    + intros [H _]. now apply forallb_star_chr.
  - split.
    + intros H. apply cat_chr_inv in H. destruct H as (c & s' & -> & Hc & Hm).
      apply IH in Hm. destruct Hm as [Hf Hl]. simpl. rewrite Hc, Hf.
      split; [reflexivity | lia].
    + intros [Hf Hl]. destruct s as [|c s']; simpl in *; [lia|].
      apply andb_true_iff in Hf. destruct Hf as [Hc Hf].
      change (c :: s') with ([c] ++ s').
      constructor; [now constructor|]. apply IH. split; [exact Hf | lia].
Qed.

(** The test in [parseChillerIdFromQr] decides the raw-id pattern. *)
Lemma raw_id_test_spec s :
  Qr.raw_id_test s = true <-> matches raw_id_re s.
Proof.
  unfold Qr.raw_id_test, raw_id_re. rewrite at_least_chr_iff.
  rewrite andb_true_iff, Nat.leb_le. reflexivity.
Qed.

End RegexFacts.

(* ================================================================== *)
(** * The QR identity codec                                            *)
(* ================================================================== *)

Module QrSpec.
Import JS JSFacts UriFacts Regex RegexFacts Qr.

(** The deep-link branch, for any trimmed text of the form
    [QR_PREFIX ++ rest]. *)
Lemma parse_deep_link value rest :
  trim value = QR_PREFIX ++ rest ->
  parseChillerIdFromQr value
  = bind (decodeURIComponent rest) (fun d => Normal (or_null (trim d))).
Proof.
  intros H. unfold parseChillerIdFromQr. rewrite H.
  rewrite startsWith_app, slice_from_app. reflexivity.
Qed.

(** [parseChillerIdFromQr] raises exactly when the trimmed text carries
    the prefix and [decodeURIComponent] rejects what follows it. *)
Lemma parse_throws_iff value :
  parseChillerIdFromQr value = Throw URIError
  <-> exists rest, trim value = QR_PREFIX ++ rest
                   /\ decodeURIComponent rest = Throw URIError.
Proof.
  split.
  - unfold parseChillerIdFromQr.
    destruct (startsWith (trim value) QR_PREFIX) eqn:E.
    + apply startsWith_iff in E. destruct E as [rest E]. rewrite E.
      rewrite slice_from_app. intros H. exists rest. split; [reflexivity|].
      destruct (decodeURIComponent rest) as [d|[]]; [discriminate | reflexivity].
    + destruct (raw_id_test (trim value)); discriminate.
  - intros (rest & E & Hd). rewrite (parse_deep_link _ _ E), Hd. reflexivity.
Qed.

(** C1 (the code departs from the claim): on a payload that carries the
    scheme prefix followed by a malformed percent-escape, the decoder
    does not return "no identifier"; [decodeURIComponent] raises
    [URIError] and nothing in [parseChillerIdFromQr] catches it.  Shown
    on a lone [%], on a non-hexadecimal escape, on a truncated
    multi-octet sequence and on an invalid UTF-8 octet. *)
Theorem parseChillerIdFromQr_throws_on_malformed_escape :
  parseChillerIdFromQr (lit "temp-monitor://chiller/%") = Throw URIError
  /\ parseChillerIdFromQr (lit "temp-monitor://chiller/ab%zz") = Throw URIError
  /\ parseChillerIdFromQr (lit "temp-monitor://chiller/%E2%82") = Throw URIError
  /\ parseChillerIdFromQr (lit " temp-monitor://chiller/abc%FF ") = Throw URIError.
Proof. repeat split; vm_compute; reflexivity. Qed.

(** C8: when the trimmed payload is the scheme prefix followed by
    [rest], the decoder percent-decodes [rest], trims the result and
    returns it when it is not empty and none when it is empty (an
    exception of the percent-decoding is passed on); no minimum length
    applies, so the prefix followed by [abc] yields [abc] although
    [abc] alone is rejected. *)
Theorem parseChillerIdFromQr_prefixed :
  (forall value rest,
      trim value = QR_PREFIX ++ rest ->
      parseChillerIdFromQr value
      = bind (decodeURIComponent rest)
             (fun d => Normal (match trim d with
                               | [] => None
                               | _ :: _ => Some (trim d)
                               end)))
  /\ parseChillerIdFromQr (lit "temp-monitor://chiller/abc") = Normal (Some (lit "abc"))
  /\ parseChillerIdFromQr (lit "temp-monitor://chiller/") = Normal None
  /\ parseChillerIdFromQr (lit "temp-monitor://chiller/%20") = Normal None
  /\ parseChillerIdFromQr (lit "abc") = Normal None.
Proof.
  split; [|repeat split; vm_compute; reflexivity].
  intros value rest H. exact (parse_deep_link value rest H).
Qed.

Lemma parseChillerIdFromQr_prefixed_witness :
  trim (lit "  temp-monitor://chiller/a%2Fb ") = QR_PREFIX ++ lit "a%2Fb"
  /\ parseChillerIdFromQr (lit "  temp-monitor://chiller/a%2Fb ")
     = Normal (Some (lit "a/b")).
Proof.
  split; [vm_compute; reflexivity|].
  rewrite (proj1 parseChillerIdFromQr_prefixed _ (lit "a%2Fb"));
    vm_compute; reflexivity.
Defined.

(** C9: when the trimmed payload does not start with the scheme
    prefix, the decoder returns the trimmed text unchanged if it
    matches the raw-id pattern (letters, digits, underscore and hyphen,
    at least ten of them) and none if it does not. *)
Theorem parseChillerIdFromQr_raw_fallback :
  (forall value,
      startsWith (trim value) QR_PREFIX = false ->
      (matches raw_id_re (trim value) ->
       parseChillerIdFromQr value = Normal (Some (trim value)))
      /\ (~ matches raw_id_re (trim value) ->
          parseChillerIdFromQr value = Normal None))
  /\ parseChillerIdFromQr (lit "abcdefghij") = Normal (Some (lit "abcdefghij"))
  /\ parseChillerIdFromQr (lit "short") = Normal None.
Proof.
  split; [|split; vm_compute; reflexivity].
  intros value H. unfold parseChillerIdFromQr. rewrite H.
  destruct (raw_id_test (trim value)) eqn:E.
  - split; [reflexivity|]. intros Hn. exfalso. apply Hn.
    now apply raw_id_test_spec.
  - split; [|reflexivity]. intros Hm. apply raw_id_test_spec in Hm. congruence.
Qed.

Lemma parseChillerIdFromQr_raw_fallback_witness :
  startsWith (trim (lit " Ab_9-Ab_9-x ")) QR_PREFIX = false
  /\ parseChillerIdFromQr (lit " Ab_9-Ab_9-x ") = Normal (Some (lit "Ab_9-Ab_9-x")).
Proof.
  split; [vm_compute; reflexivity|].
  apply (proj1 parseChillerIdFromQr_raw_fallback (lit " Ab_9-Ab_9-x ")).
  - vm_compute; reflexivity.
  - apply raw_id_test_spec. vm_compute; reflexivity.
Defined.

(** C2: for a non-empty identifier of ASCII code units (which covers
    the unreserved characters and the common punctuation) without
    leading or trailing white space, building the QR value succeeds and
    parsing it gives the identifier back. *)
Theorem parse_build_roundtrip (x : jsstring) :
  x <> [] ->
  Forall ascii_unit x ->
  trim x = x ->
  bind (buildChillerQrValue x) parseChillerIdFromQr = Normal (Some x).
Proof.
  intros Hne Ha Ht.
  destruct (encode_decode_ascii x Ha) as (e & He & Hd & Hw).
  unfold buildChillerQrValue. rewrite He. cbn [cmap bind].
  assert (Hp : Forall not_ws QR_PREFIX).
  { unfold not_ws. apply Forall_forall. intros c Hc.
    vm_compute in Hc. intuition (subst; reflexivity). }
  rewrite (parse_deep_link (QR_PREFIX ++ e) e).
  - rewrite Hd. cbn [bind]. rewrite Ht.
    destruct x; [congruence | reflexivity].
  - apply trim_Forall. apply Forall_app. now split.
Qed.

Lemma parse_build_roundtrip_witness :
  bind (buildChillerQrValue (lit "Chiller #7/a b?c=d&e%"))
       parseChillerIdFromQr
  = Normal (Some (lit "Chiller #7/a b?c=d&e%")).
Proof.
  apply parse_build_roundtrip.
  - discriminate.
  - unfold ascii_unit. repeat constructor.
  - vm_compute; reflexivity.
Defined.

End QrSpec.

(* ================================================================== *)
(** * The keypad normalizer                                            *)
(* ================================================================== *)

Module KeypadSpec.
Import JS JSFacts Regex RegexFacts TempKeypad.

(** ** [replace] with the global flag, as [map] and [filter] *)

Lemma replace_all_char cls d s :
  replace_all cls [d] s = map (fun c => if cls c then d else c) s.
Proof. induction s as [|c r IH]; simpl; [reflexivity|]. destruct (cls c); now rewrite IH. Qed.

Lemma replace_all_delete cls s :
  replace_all cls [] s = filter (fun c => negb (cls c)) s.
Proof. induction s as [|c r IH]; simpl; [reflexivity|]. destruct (cls c); simpl; now rewrite IH. Qed.

Lemma filter_id {A} (f : A -> bool) l : forallb f l = true -> filter f l = l.
Proof.
  induction l as [|a l IH]; simpl; [reflexivity|].
  intros H. apply andb_true_iff in H. destruct H as [-> H]. now rewrite IH.
Qed.

Lemma map_id_on {A} (f : A -> A) l : Forall (fun a => f a = a) l -> map f l = l.
Proof. induction 1 as [|a l Ha _ IH]; simpl; congruence. Qed.

(** ** [split] *)

Lemma split_not_nil sep s : split sep s <> [].
Proof.
  destruct s as [|c r]; simpl; [discriminate|].
  destruct (c =? sep); [discriminate|]. destruct (split sep r); discriminate.
Qed.

Lemma split_cons_other sep c s :
  (c =? sep) = false ->
  split sep (c :: s) = (c :: hd [] (split sep s)) :: tl (split sep s).
Proof.
  intros H. simpl. rewrite H.
  destruct (split sep s) eqn:E; [now apply split_not_nil in E | reflexivity].
Qed.

Lemma concat_split sep s :
  concat (split sep s) = filter (fun c => negb (c =? sep)) s.
Proof.
  induction s as [|c r IH]; simpl; [reflexivity|].
  destruct (c =? sep) eqn:E; simpl; [exact IH|].
  destruct (split sep r) eqn:Es; [now apply split_not_nil in Es|].
  simpl in *. now rewrite IH.
Qed.

Lemma split_single sep s h : split sep s = [h] -> s = h.
Proof.
  revert h; induction s as [|c r IH]; simpl; intros h H; [now injection H|].
  destruct (c =? sep).
  - injection H as _ H. now apply split_not_nil in H.
  - destruct (split sep r) as [|h' t] eqn:Es; [now apply split_not_nil in Es|].
    injection H as <- ->. f_equal. now apply IH.
Qed.

(** ** [collapse_dots] *)

Lemma normalizeInput_unfold raw mode :
  normalizeInput raw mode
  = let s := replace_all (fun c => c =? ch_comma) [ch_dot] raw in
    let s := replace_all not_digit_minus_dot [] s in
    collapse_dots
      (if Mode_eqb mode signed_decimal && startsWith s [ch_minus]
       then ch_minus :: replace_all (fun c => c =? ch_minus) [] s
       else replace_all (fun c => c =? ch_minus) [] s).
Proof. reflexivity. Qed.

Lemma collapse_dots_nil : collapse_dots [] = [].
Proof. reflexivity. Qed.

Lemma collapse_dots_cons_other c s :
  (c =? ch_dot) = false -> collapse_dots (c :: s) = c :: collapse_dots s.
Proof.
  intros H. unfold collapse_dots.
  rewrite (split_cons_other _ _ _ H). cbn [length hd tl].
  destruct (split ch_dot s) as [|h t] eqn:Es; [now apply split_not_nil in Es|].
  cbn [length hd tl]. destruct (2 <? S (length t))%nat; reflexivity.
Qed.

(** Behind the first point, every further point is dropped. *)
Lemma collapse_dots_cons_dot s :
  collapse_dots (ch_dot :: s)
  = ch_dot :: filter (fun c => negb (c =? ch_dot)) s.
Proof.
  unfold collapse_dots. cbn [split]. rewrite N.eqb_refl.
  pose proof (concat_split ch_dot s) as Hc.
  destruct (split ch_dot s) as [|h [|h' t]] eqn:Es.
  - now apply split_not_nil in Es.
  - apply split_single in Es. subst h.
    cbn in Hc. rewrite app_nil_r in Hc.
    cbn [length Nat.ltb Nat.leb]. now rewrite <- Hc.
  - cbn [length Nat.ltb Nat.leb hd tl app]. unfold join_empty.
    now rewrite Hc.
Qed.

(** ** Character classes met by the normalizer *)

Lemma is_digit_other c :
  is_digit c = true ->
  (c =? ch_dot) = false /\ (c =? ch_minus) = false /\ (c =? ch_comma) = false.
Proof.
  unfold is_digit, ch_dot, ch_minus, ch_comma. intros H.
  repeat split; by_class; class_lia.
Qed.

Lemma digits_no_dot l :
  forallb is_digit l = true -> forallb (fun c => negb (c =? ch_dot)) l = true.
Proof.
  induction l as [|c l IH]; simpl; [reflexivity|].
  intros H. apply andb_true_iff in H. destruct H as [Hc Hl].
  destruct (is_digit_other c Hc) as (-> & _ & _). simpl. now apply IH.
Qed.

Lemma digits_digit_or_dot l :
  forallb is_digit l = true -> forallb digit_or_dot l = true.
Proof.
  induction l as [|c l IH]; simpl; [reflexivity|].
  intros H. apply andb_true_iff in H. destruct H as [Hc Hl].
  unfold digit_or_dot at 1. rewrite Hc. simpl. now apply IH.
Qed.

Lemma drop_dots_digits l :
  forallb digit_or_dot l = true ->
  forallb is_digit (filter (fun c => negb (c =? ch_dot)) l) = true.
Proof.
  induction l as [|c l IH]; simpl; [reflexivity|].
  intros H. apply andb_true_iff in H. destruct H as [Hc Hl].
  unfold digit_or_dot in Hc.
  destruct (c =? ch_dot) eqn:E; simpl; [now apply IH|].
  rewrite orb_false_r in Hc. rewrite Hc. simpl. now apply IH.
Qed.

(** What is left after the first three replacements consists of digits
    and points. *)
Lemma kept_digit_or_dot l :
  forallb digit_or_dot
    (replace_all (fun c => c =? ch_minus) []
       (replace_all not_digit_minus_dot [] l)) = true.
Proof.
  rewrite !replace_all_delete.
  induction l as [|c l IH]; simpl; [reflexivity|].
  unfold not_digit_minus_dot at 1. rewrite negb_involutive.
  destruct (is_digit c || (c =? ch_minus) || (c =? ch_dot)) eqn:K; simpl; [|exact IH].
  destruct (c =? ch_minus) eqn:M; simpl; [exact IH|].
  rewrite IH, andb_true_r. unfold digit_or_dot.
  destruct (is_digit c); simpl in *; [reflexivity|]. exact K.
Qed.

(** ** Shape of the result *)

Lemma collapse_dots_shape s :
  forallb digit_or_dot s = true -> is_buffer false (collapse_dots s).
Proof.
  induction s as [|c r IH]; intros H.
  - exists [], [], []. repeat split; auto.
  - simpl in H. apply andb_true_iff in H. destruct H as [Hc Hr].
    destruct (c =? ch_dot) eqn:E.
    + apply N.eqb_eq in E. subst c. rewrite collapse_dots_cons_dot.
      exists [], [], (ch_dot :: filter (fun c => negb (c =? ch_dot)) r).
      repeat split; auto. right. eexists. split; [reflexivity|].
      now apply drop_dots_digits.
    + rewrite (collapse_dots_cons_other _ _ E).
      destruct (IH Hr) as (sign & ip & frac & Heq & Hs & Hip & Hf).
      destruct Hs as [-> | [? _]]; [|discriminate].
      exists [], (c :: ip), frac. rewrite Heq. repeat split; auto.
      simpl. unfold digit_or_dot in Hc. rewrite E, orb_false_r in Hc.
      now rewrite Hc, Hip.
Qed.

Lemma collapse_dots_fixed ip frac :
  forallb is_digit ip = true ->
  (frac = [] \/ exists fp, frac = ch_dot :: fp /\ forallb is_digit fp = true) ->
  collapse_dots (ip ++ frac) = ip ++ frac.
Proof.
  intros Hip Hf. induction ip as [|c ip IH]; simpl in *.
  - destruct Hf as [-> | (fp & -> & Hfp)]; [reflexivity|].
    rewrite collapse_dots_cons_dot. f_equal.
    apply filter_id. now apply digits_no_dot.
  - apply andb_true_iff in Hip. destruct Hip as [Hc Hip].
    destruct (is_digit_other c Hc) as (E & _ & _).
    rewrite (collapse_dots_cons_other _ _ E). f_equal. now apply IH.
Qed.

Lemma is_buffer_weaken s : is_buffer false s -> forall b, is_buffer b s.
Proof.
  intros (sign & ip & frac & Heq & Hs & Hip & Hf) b.
  exists sign, ip, frac. repeat split; auto.
  destruct Hs as [-> | [? _]]; [now left | discriminate].
Qed.

Lemma is_buffer_any_mode mode s :
  is_buffer (Mode_eqb mode signed_decimal) s -> is_buffer true s.
Proof.
  intros (sign & ip & frac & Heq & Hs & Hip & Hf).
  exists sign, ip, frac. repeat split; auto.
  destruct Hs as [-> | [_ ->]]; [now left | now right].
Qed.

Lemma is_buffer_minus s : is_buffer false s -> is_buffer true (ch_minus :: s).
Proof.
  intros (sign & ip & frac & Heq & Hs & Hip & Hf).
  destruct Hs as [-> | [? _]]; [|discriminate].
  exists [ch_minus], ip, frac. subst s. repeat split; auto.
Qed.

Lemma normalizeInput_is_buffer raw mode :
  is_buffer (Mode_eqb mode signed_decimal) (normalizeInput raw mode).
Proof.
  rewrite normalizeInput_unfold. cbv zeta.
  set (s2 := replace_all not_digit_minus_dot [] _).
  pose proof (kept_digit_or_dot (replace_all (fun c => c =? ch_comma) [ch_dot] raw)) as Hk.
  fold s2 in Hk.
  destruct (Mode_eqb mode signed_decimal); cbn [andb].
  - destruct (startsWith s2 [ch_minus]).
    + rewrite collapse_dots_cons_other by reflexivity.
      apply is_buffer_minus. now apply collapse_dots_shape.
    + apply is_buffer_weaken. now apply collapse_dots_shape.
  - now apply collapse_dots_shape.
Qed.

(** ** Membership in the grammar *)

Lemma unsigned_buffer_matches ip frac :
  forallb is_digit ip = true ->
  (frac = [] \/ exists fp, frac = ch_dot :: fp /\ forallb is_digit fp = true) ->
  matches unsigned_buffer_re (ip ++ frac).
Proof.
  intros Hip Hf. unfold unsigned_buffer_re. constructor.
  - now apply forallb_star_chr.
  - destruct Hf as [-> | (fp & -> & Hfp)].
    + apply M_AltL. constructor.
    + apply M_AltR. change (ch_dot :: fp) with ([ch_dot] ++ fp). constructor.
      * constructor. apply N.eqb_refl.
      * now apply forallb_star_chr.
Qed.

Lemma is_buffer_matches mode s :
  is_buffer (Mode_eqb mode signed_decimal) s -> matches (buffer_re mode) s.
Proof.
  intros (sign & ip & frac & -> & Hs & Hip & Hf).
  pose proof (unsigned_buffer_matches ip frac Hip Hf) as Hu.
  destruct mode; simpl in *.
  - unfold signed_buffer_re. constructor; [|exact Hu].
    destruct Hs as [-> | [_ ->]].
    + apply M_AltL. constructor.
    + apply M_AltR. constructor. apply N.eqb_refl.
  - destruct Hs as [-> | [? _]]; [exact Hu | discriminate].
Qed.

(** ** Buffers of the grammar are left alone *)

Lemma body_untouched body :
  forallb digit_or_dot body = true ->
  replace_all (fun c => c =? ch_comma) [ch_dot] body = body
  /\ replace_all not_digit_minus_dot [] body = body
  /\ replace_all (fun c => c =? ch_minus) [] body = body
  /\ startsWith body [ch_minus] = false.
Proof.
  intros H.
  assert (Hall : Forall (fun c => (c =? ch_comma) = false
                                  /\ (c =? ch_minus) = false
                                  /\ not_digit_minus_dot c = false) body).
  { apply Forall_forall. intros c Hc.
    rewrite forallb_forall in H. specialize (H c Hc).
    unfold digit_or_dot in H. unfold not_digit_minus_dot.
    destruct (is_digit c) eqn:D.
    - destruct (is_digit_other c D) as (_ & -> & ->). auto.
    - simpl in H. apply N.eqb_eq in H. subst c. auto. }
  repeat split.
  - rewrite replace_all_char. apply map_id_on.
    eapply Forall_impl; [|exact Hall]. intros c (-> & _). reflexivity.
  - rewrite replace_all_delete. apply filter_id. apply forallb_forall.
    intros c Hc. rewrite Forall_forall in Hall.
    destruct (Hall c Hc) as (_ & _ & ->). reflexivity.
  - rewrite replace_all_delete. apply filter_id. apply forallb_forall.
    intros c Hc. rewrite Forall_forall in Hall.
    destruct (Hall c Hc) as (_ & -> & _). reflexivity.
  - destruct body as [|c r]; [reflexivity|]. inversion Hall; subst.
    cbn [startsWith]. rewrite N.eqb_sym.
    destruct H2 as (_ & -> & _). reflexivity.
Qed.

Lemma buffer_body ip frac :
  forallb is_digit ip = true ->
  (frac = [] \/ exists fp, frac = ch_dot :: fp /\ forallb is_digit fp = true) ->
  forallb digit_or_dot (ip ++ frac) = true.
Proof.
  intros Hip Hf. rewrite forallb_app, (digits_digit_or_dot ip Hip).
  destruct Hf as [-> | (fp & -> & Hfp)]; [reflexivity|].
  simpl. now apply digits_digit_or_dot.
Qed.

Lemma normalizeInput_fixed mode s :
  is_buffer (Mode_eqb mode signed_decimal) s -> normalizeInput s mode = s.
Proof.
  intros (sign & ip & frac & -> & Hs & Hip & Hf).
  pose proof (buffer_body ip frac Hip Hf) as Hb.
  destruct (body_untouched _ Hb) as (H1 & H2 & H3 & H4).
  rewrite normalizeInput_unfold. cbv zeta.
  destruct Hs as [-> | [Hm ->]]; cbn [app].
  - rewrite H1, H2, H3, H4, andb_false_r. now apply collapse_dots_fixed.
  - cbn [replace_all].
    change (ch_minus =? ch_comma) with false. cbv iota.
    rewrite H1. cbn [replace_all].
    change (not_digit_minus_dot ch_minus) with false. cbv iota.
    rewrite H2. cbn [replace_all startsWith]. rewrite N.eqb_refl. cbn [app andb].
    rewrite H3, Hm. cbn [andb].
    rewrite collapse_dots_cons_other by reflexivity.
    f_equal. now apply collapse_dots_fixed.
Qed.

(** ** Digits behind the first point *)

Lemma behind_point rest :
  filter (fun c => negb (c =? ch_dot))
    (replace_all (fun c => c =? ch_minus) []
       (replace_all not_digit_minus_dot []
          (replace_all (fun c => c =? ch_comma) [ch_dot] rest)))
  = filter is_digit rest.
Proof.
  rewrite replace_all_char, !replace_all_delete.
  induction rest as [|c r IH]; [reflexivity|].
  cbn [map filter]. destruct (is_digit c) eqn:D.
  - destruct (is_digit_other c D) as (E1 & E2 & E3).
    rewrite E3. unfold not_digit_minus_dot at 1. rewrite D. cbn [orb negb filter].
    rewrite E2. cbn [negb filter]. rewrite E1. cbn [negb]. now rewrite IH.
  - destruct (c =? ch_comma) eqn:E.
    + cbn. exact IH.
    + unfold not_digit_minus_dot at 1. rewrite D. cbn [orb].
      destruct (c =? ch_minus) eqn:M; cbn [orb negb filter].
      * rewrite M. cbn [negb]. exact IH.
      * destruct (c =? ch_dot) eqn:P; cbn [negb filter]; [|exact IH].
        rewrite M. cbn [negb filter]. rewrite P. cbn [negb]. exact IH.
Qed.

Lemma replace_all_app cls by_ a b :
  replace_all cls by_ (a ++ b) = replace_all cls by_ a ++ replace_all cls by_ b.
Proof.
  induction a as [|c a IH]; simpl; [reflexivity|].
  destruct (cls c); rewrite IH; [now rewrite app_assoc | reflexivity].
Qed.

Lemma normalizeInput_first_point ip rest mode :
  forallb is_digit ip = true ->
  normalizeInput (ip ++ ch_dot :: rest) mode
  = ip ++ ch_dot :: filter is_digit rest.
Proof.
  intros Hip.
  destruct (body_untouched ip (digits_digit_or_dot ip Hip)) as (H1 & H2 & H3 & H4).
  rewrite normalizeInput_unfold. cbv zeta.
  rewrite (replace_all_app _ _ ip), H1. cbn [replace_all].
  change (ch_dot =? ch_comma) with false. cbv iota.
  rewrite (replace_all_app _ _ ip), H2. cbn [replace_all].
  change (not_digit_minus_dot ch_dot) with false. cbv iota.
  rewrite (replace_all_app _ _ ip), H3. cbn [replace_all].
  change (ch_dot =? ch_minus) with false. cbv iota.
  set (tail := replace_all not_digit_minus_dot [] _).
  assert (Hs : startsWith (ip ++ ch_dot :: tail) [ch_minus] = false).
  { destruct ip as [|c ip']; [reflexivity|]. exact H4. }
  rewrite Hs, andb_false_r. rewrite <- behind_point. fold tail.
  clear H1 H2 H3 H4 Hs. induction ip as [|c ip IH]; cbn [app].
  - now rewrite collapse_dots_cons_dot.
  - simpl in Hip. apply andb_true_iff in Hip. destruct Hip as [Hc Hip].
    destruct (is_digit_other c Hc) as (E & _ & _).
    rewrite (collapse_dots_cons_other _ _ E). f_equal. now apply IH.
Qed.

(** ** The result in full *)

Lemma startsMinus_leading raw :
  startsWith
    (replace_all not_digit_minus_dot []
       (replace_all (fun c => c =? ch_comma) [ch_dot] raw)) [ch_minus]
  = leading_minus raw.
Proof.
  induction raw as [|c r IH]; [reflexivity|].
  cbn [replace_all leading_minus]. destruct (c =? ch_comma) eqn:K.
  - apply N.eqb_eq in K. subst c. reflexivity.
  - cbn [app replace_all]. unfold not_digit_minus_dot at 1.
    rewrite orb_false_r.
    destruct (c =? ch_minus) eqn:M.
    + apply N.eqb_eq in M. subst c. reflexivity.
    + destruct (is_digit c || (c =? ch_dot)) eqn:D.
      * replace (is_digit c || false || (c =? ch_dot)) with true
          by (destruct (is_digit c); [reflexivity | exact (eq_sym D)]).
        cbn [negb startsWith]. rewrite N.eqb_sym, M. reflexivity.
      * apply orb_false_iff in D. destruct D as [-> ->]. exact IH.
Qed.

Lemma leading_minus_separator pre sep rest :
  sep = ch_dot \/ sep = ch_comma ->
  leading_minus (pre ++ sep :: rest) = leading_minus pre.
Proof.
  intros Hs. induction pre as [|c pre IH]; cbn [app leading_minus].
  - destruct Hs as [-> | ->]; reflexivity.
  - now rewrite IH.
Qed.

Lemma comma_free pre :
  ~ In ch_comma pre -> replace_all (fun c => c =? ch_comma) [ch_dot] pre = pre.
Proof.
  induction pre as [|c pre IH]; [reflexivity|]. intros H.
  cbn [replace_all]. destruct (c =? ch_comma) eqn:K.
  - apply N.eqb_eq in K. exfalso. apply H. now left.
  - rewrite IH; [reflexivity|]. intros Hin. apply H. now right.
Qed.

Lemma digits_of_prefix pre :
  ~ In ch_dot pre ->
  replace_all (fun c => c =? ch_minus) [] (replace_all not_digit_minus_dot [] pre)
  = filter is_digit pre.
Proof.
  rewrite !replace_all_delete.
  induction pre as [|c pre IH]; [reflexivity|]. intros H.
  assert (Hc : (c =? ch_dot) = false).
  { apply N.eqb_neq. intros E. apply H. now left. }
  assert (Hp : ~ In ch_dot pre) by (intros Hin; apply H; now right).
  cbn [filter]. unfold not_digit_minus_dot at 1. rewrite negb_involutive, Hc.
  rewrite orb_false_r. destruct (is_digit c) eqn:D.
  - destruct (is_digit_other c D) as (_ & M & _). cbn [orb filter].
    rewrite M. cbn [negb]. now rewrite IH.
  - cbn [orb]. destruct (c =? ch_minus) eqn:M; cbn [filter].
    + rewrite M. cbn [negb]. now apply IH.
    + now apply IH.
Qed.

Lemma filter_forallb {A} (f : A -> bool) l : forallb f (filter f l) = true.
Proof.
  induction l as [|a l IH]; [reflexivity|]. cbn [filter].
  destruct (f a) eqn:E; [cbn [forallb]; now rewrite E | exact IH].
Qed.

Lemma collapse_dots_digits_point ds tail :
  forallb is_digit ds = true ->
  collapse_dots (ds ++ ch_dot :: tail)
  = ds ++ ch_dot :: filter (fun c => negb (c =? ch_dot)) tail.
Proof.
  intros H. induction ds as [|c ds IH]; cbn [app].
  - apply collapse_dots_cons_dot.
  - cbn [forallb] in H. apply andb_true_iff in H. destruct H as [Hc H].
    destruct (is_digit_other c Hc) as (E & _ & _).
    rewrite (collapse_dots_cons_other _ _ E). f_equal. now apply IH.
Qed.

(** Without a point or a comma the result is the sign followed by the
    digits of the input. *)
Lemma normalizeInput_no_separator pre mode :
  ~ In ch_dot pre -> ~ In ch_comma pre ->
  normalizeInput pre mode
  = (if Mode_eqb mode signed_decimal && leading_minus pre then [ch_minus] else [])
    ++ filter is_digit pre.
Proof.
  intros Hd Hc. rewrite normalizeInput_unfold. cbv zeta.
  rewrite startsMinus_leading, (comma_free pre Hc), (digits_of_prefix pre Hd).
  pose proof (collapse_dots_fixed (filter is_digit pre) []
                (filter_forallb is_digit pre) (or_introl eq_refl)) as Hfix.
  rewrite app_nil_r in Hfix.
  destruct (Mode_eqb mode signed_decimal && leading_minus pre); cbn [app].
  - rewrite collapse_dots_cons_other by reflexivity. now rewrite Hfix.
  - exact Hfix.
Qed.

(** The first point or comma is kept as a point; behind it only the
    digits of the input survive. *)
Lemma normalizeInput_separator pre sep rest mode :
  ~ In ch_dot pre -> ~ In ch_comma pre ->
  sep = ch_dot \/ sep = ch_comma ->
  normalizeInput (pre ++ sep :: rest) mode
  = normalizeInput pre mode ++ ch_dot :: filter is_digit rest.
Proof.
  intros Hd Hc Hs. rewrite (normalizeInput_no_separator pre mode Hd Hc).
  assert (Hsep : replace_all (fun c => c =? ch_comma) [ch_dot] (sep :: rest)
                 = ch_dot :: replace_all (fun c => c =? ch_comma) [ch_dot] rest)
    by (destruct Hs as [-> | ->]; reflexivity).
  assert (H3 : replace_all (fun c => c =? ch_minus) []
                 (replace_all not_digit_minus_dot []
                    (replace_all (fun c => c =? ch_comma) [ch_dot]
                       (pre ++ sep :: rest)))
               = filter is_digit pre
                 ++ ch_dot
                    :: replace_all (fun c => c =? ch_minus) []
                         (replace_all not_digit_minus_dot []
                            (replace_all (fun c => c =? ch_comma) [ch_dot] rest))).
  { rewrite (replace_all_app _ _ pre), (comma_free pre Hc), Hsep.
    rewrite (replace_all_app not_digit_minus_dot [] pre). cbn [replace_all].
    change (not_digit_minus_dot ch_dot) with false. cbv iota.
    rewrite (replace_all_app (fun c => c =? ch_minus) []
               (replace_all not_digit_minus_dot [] pre)).
    rewrite (digits_of_prefix pre Hd). cbn [replace_all].
    change (ch_dot =? ch_minus) with false. reflexivity. }
  rewrite normalizeInput_unfold. cbv zeta.
  rewrite startsMinus_leading, (leading_minus_separator pre sep rest Hs), H3.
  rewrite <- (behind_point rest).
  destruct (Mode_eqb mode signed_decimal && leading_minus pre); cbn [app].
  - rewrite collapse_dots_cons_other by reflexivity. f_equal.
    apply collapse_dots_digits_point, filter_forallb.
  - apply collapse_dots_digits_point, filter_forallb.
Qed.

(** C6: whatever the input and the mode, the result of [normalizeInput]
    is a word of the buffer grammar (an optional leading minus, digits,
    and optionally one point followed by digits); in unsigned mode it is
    a word of the grammar without the minus, so the minus occurs only
    in front and only in signed mode.  The result is determined for
    every input: without a point or a comma it is the digits of the
    input, behind a minus when the mode is signed and the first digit,
    minus, point or comma of the input is a minus; and for any input
    [pre ++ sep :: rest] whose [pre] holds no point and no comma and
    whose [sep] is a point or a comma, it is the result for [pre], a
    point, and all digits of [rest].  So [1.2.3] becomes [1.23],
    [-1.2.3] becomes [-1.23] in signed mode, and [1,2.3] and [x1.2.3]
    become [1.23]. *)
Theorem normalizeInput_grammar :
  (forall raw mode, matches signed_buffer_re (normalizeInput raw mode))
  /\ (forall raw, matches unsigned_buffer_re (normalizeInput raw unsigned_decimal))
  /\ (forall raw mode, is_buffer (Mode_eqb mode signed_decimal) (normalizeInput raw mode))
  /\ (forall ip rest mode,
         forallb is_digit ip = true ->
         normalizeInput (ip ++ ch_dot :: rest) mode
         = ip ++ ch_dot :: filter is_digit rest)
  /\ (forall pre mode,
         ~ In ch_dot pre -> ~ In ch_comma pre ->
         normalizeInput pre mode
         = (if Mode_eqb mode signed_decimal && leading_minus pre
            then [ch_minus] else [])
           ++ filter is_digit pre)
  /\ (forall pre sep rest mode,
         ~ In ch_dot pre -> ~ In ch_comma pre ->
         sep = ch_dot \/ sep = ch_comma ->
         normalizeInput (pre ++ sep :: rest) mode
         = normalizeInput pre mode ++ ch_dot :: filter is_digit rest)
  /\ normalizeInput (lit "1.2.3") signed_decimal = lit "1.23"
  /\ normalizeInput (lit "1.2.3") unsigned_decimal = lit "1.23"
  /\ normalizeInput (lit "-1.2.3") signed_decimal = lit "-1.23"
  /\ normalizeInput (lit "-1.2.3") unsigned_decimal = lit "1.23"
  /\ normalizeInput (lit "1,2.3") signed_decimal = lit "1.23"
  /\ normalizeInput (lit "x1.2.3") signed_decimal = lit "1.23".
Proof.
  split; [|split; [|split; [|split; [|split; [|split]]]]].
  - intros raw mode.
    apply (is_buffer_matches signed_decimal), (is_buffer_any_mode mode).
    apply normalizeInput_is_buffer.
  - intros raw.
    apply (is_buffer_matches unsigned_decimal), normalizeInput_is_buffer.
  - exact normalizeInput_is_buffer.
  - exact normalizeInput_first_point.
  - exact normalizeInput_no_separator.
  - exact normalizeInput_separator.
  - repeat split; reflexivity.
Qed.

Lemma normalizeInput_grammar_witness :
  forallb is_digit (lit "12") = true
  /\ normalizeInput (lit "12.3,4-5.x6") signed_decimal = lit "12.3456"
  /\ ~ In ch_dot (lit "a-7b-") /\ ~ In ch_comma (lit "a-7b-")
  /\ normalizeInput (lit "a-7b-") signed_decimal = lit "-7"
  /\ normalizeInput (lit "a-7b-,3.4-,5") signed_decimal = lit "-7.345".
Proof.
  assert (Hd : ~ In ch_dot (lit "a-7b-"))
    by (intros H; vm_compute in H; intuition discriminate).
  assert (Hc : ~ In ch_comma (lit "a-7b-"))
    by (intros H; vm_compute in H; intuition discriminate).
  destruct normalizeInput_grammar as (_ & _ & _ & H4 & H5 & H6 & _).
  split; [reflexivity|].
  split; [exact (H4 (lit "12") (lit "3,4-5.x6") signed_decimal eq_refl)|].
  split; [exact Hd|]. split; [exact Hc|]. split.
  - rewrite (H5 (lit "a-7b-") signed_decimal Hd Hc). reflexivity.
  - change (lit "a-7b-,3.4-,5") with (lit "a-7b-" ++ ch_comma :: lit "3.4-,5").
    rewrite (H6 (lit "a-7b-") ch_comma (lit "3.4-,5") signed_decimal Hd Hc
               (or_intror eq_refl)).
    rewrite (H5 (lit "a-7b-") signed_decimal Hd Hc). reflexivity.
Defined.

(** C7: [normalizeInput] is idempotent in either mode. *)
Theorem normalizeInput_idempotent raw mode :
  normalizeInput (normalizeInput raw mode) mode = normalizeInput raw mode.
Proof. apply normalizeInput_fixed, normalizeInput_is_buffer. Qed.

(** No comma survives the normalizer. *)
Lemma normalizeInput_no_comma raw mode : ~ In ch_comma (normalizeInput raw mode).
Proof.
  destruct (normalizeInput_is_buffer raw mode)
    as (sign & ip & frac & -> & Hs & Hip & Hf).
  pose proof (buffer_body ip frac Hip Hf) as Hb.
  intros Hin. apply in_app_or in Hin. destruct Hin as [Hin | Hin].
  - destruct Hs as [-> | [_ ->]]; [destruct Hin|].
    destruct Hin as [E | []]. discriminate E.
  - rewrite forallb_forall in Hb. specialize (Hb _ Hin). discriminate Hb.
Qed.

End KeypadSpec.

(* ================================================================== *)
(** * [Number(string)] rejects every string with a comma               *)
(* ================================================================== *)

Module NumberFacts.
Import JS JSFacts.

Lemma span_In p s a b c :
  span p s = (a, b) -> p c = false -> In c s -> In c b.
Proof.
  revert a b; induction s as [|x r IH]; intros a b Hs Hp Hin.
  - destruct Hin.
  - simpl in Hs. destruct (p x) eqn:Px.
    + destruct (span p r) as [a' b'] eqn:Er. injection Hs as <- <-.
      destruct Hin as [-> | Hin]; [congruence|]. eapply IH; eauto.
    + injection Hs as <- <-. exact Hin.
Qed.

Lemma forallb_In_false {A} (f : A -> bool) l c :
  In c l -> f c = false -> forallb f l = false.
Proof.
  intros Hin Hf. destruct (forallb f l) eqn:E; [|reflexivity].
  rewrite forallb_forall in E. rewrite (E c Hin) in Hf. discriminate.
Qed.

Lemma parse_ExponentPart_comma s :
  In ch_comma s -> parse_ExponentPart s = None.
Proof.
  intros Hin. destruct s as [|c r]; [destruct Hin|].
  unfold parse_ExponentPart.
  destruct ((c =? 101) || (c =? 69)) eqn:E; [|reflexivity].
  assert (Hr : In ch_comma r).
  { destruct Hin as [-> | Hin]; [discriminate E | exact Hin]. }
  assert (H1 : forall neg r1, In ch_comma r1 ->
             (let '(ds, rest) := span is_digit r1 in
              match ds, rest with
              | _ :: _, [] =>
                  Some (if neg : bool then Z.opp (digits_value 10 ds)
                        else digits_value 10 ds)
              | _, _ => None
              end) = None).
  { intros neg r1 Hr1. destruct (span is_digit r1) as [ds rest] eqn:Es.
    pose proof (span_In _ _ _ _ ch_comma Es eq_refl Hr1) as Hrest.
    destruct rest; [destruct Hrest|]. destruct ds; reflexivity. }
  destruct r as [|sg r']; [destruct Hr|].
  destruct (sg =? ch_plus) eqn:P.
  { apply (H1 false). destruct Hr as [-> | Hr]; [discriminate P | exact Hr]. }
  destruct (sg =? ch_minus) eqn:M.
  { apply (H1 true). destruct Hr as [-> | Hr]; [discriminate M | exact Hr]. }
  apply (H1 false). exact Hr.
Qed.

Lemma parse_StrUnsignedDecimalLiteral_comma s :
  In ch_comma s -> parse_StrUnsignedDecimalLiteral s = None.
Proof.
  intros Hin. unfold parse_StrUnsignedDecimalLiteral.
  destruct (eqb s (lit "Infinity")) eqn:E.
  { apply eqb_eq in E. subst s. vm_compute in Hin. intuition discriminate. }
  destruct (span is_digit s) as [ip r1] eqn:Es.
  pose proof (span_In _ _ _ _ ch_comma Es eq_refl Hin) as Hr1.
  destruct r1 as [|c r2]; [destruct Hr1|].
  destruct (c =? ch_dot) eqn:D.
  - assert (Hr2 : In ch_comma r2).
    { destruct Hr1 as [-> | H]; [discriminate D | exact H]. }
    destruct (span is_digit r2) as [fp r3] eqn:Ef.
    pose proof (span_In _ _ _ _ ch_comma Ef eq_refl Hr2) as Hr3.
    rewrite (parse_ExponentPart_comma r3 Hr3).
    destruct ip, fp; reflexivity.
  - destruct ip; [reflexivity|].
    now rewrite (parse_ExponentPart_comma (c :: r2) Hr1).
Qed.

Lemma parse_StrDecimalLiteral_comma s :
  In ch_comma s -> parse_StrDecimalLiteral s = None.
Proof.
  intros Hin. destruct s as [|c r]; [reflexivity|].
  unfold parse_StrDecimalLiteral.
  destruct (c =? ch_plus) eqn:P.
  { destruct Hin as [-> | Hin]; [discriminate P|].
    now rewrite parse_StrUnsignedDecimalLiteral_comma. }
  destruct (c =? ch_minus) eqn:M.
  { destruct Hin as [-> | Hin]; [discriminate M|].
    now rewrite parse_StrUnsignedDecimalLiteral_comma. }
  now rewrite parse_StrUnsignedDecimalLiteral_comma.
Qed.

Lemma parse_NonDecimalIntegerLiteral_comma s :
  In ch_comma s -> parse_NonDecimalIntegerLiteral s = None.
Proof.
  intros Hin. destruct s as [|z [|k [|d ds]]]; try reflexivity.
  unfold parse_NonDecimalIntegerLiteral.
  destruct (z =? 48) eqn:Z0; [|reflexivity].
  destruct Hin as [-> | Hin]; [discriminate Z0|].
  destruct ((k =? 120) || (k =? 88)) eqn:X.
  { destruct Hin as [-> | Hin]; [discriminate X|].
    now rewrite (forallb_In_false is_hex_digit _ ch_comma Hin eq_refl). }
  destruct ((k =? 111) || (k =? 79)) eqn:O.
  { destruct Hin as [-> | Hin]; [discriminate O|].
    now rewrite (forallb_In_false is_octal_digit _ ch_comma Hin eq_refl). }
  destruct ((k =? 98) || (k =? 66)) eqn:B; [|reflexivity].
  destruct Hin as [-> | Hin]; [discriminate B|].
  now rewrite (forallb_In_false is_binary_digit _ ch_comma Hin eq_refl).
Qed.

Lemma StringToNumber_comma s :
  In ch_comma s -> StringToNumber s = NaN.
Proof.
  intros Hin. apply (trim_In ch_comma s eq_refl) in Hin.
  unfold StringToNumber. destruct (trim s) as [|c r] eqn:Et; [destruct Hin|].
  rewrite (parse_NonDecimalIntegerLiteral_comma _ Hin).
  now rewrite (parse_StrDecimalLiteral_comma _ Hin).
Qed.

(** ** Counting commas through [trim] and [replace] *)

Lemma occurrences_trimStart c s :
  not_ws c -> occurrences c (trimStart s) = occurrences c s.
Proof.
  intros Hc. unfold occurrences.
  induction s as [|x r IH]; [reflexivity|].
  cbn [trimStart]. destruct (is_white_space x) eqn:W; [|reflexivity].
  rewrite IH. cbn [count_occ].
  destruct (N.eq_dec x c) as [->|]; [|reflexivity].
  unfold not_ws in Hc. congruence.
Qed.

Lemma occurrences_rev c s : occurrences c (rev s) = occurrences c s.
Proof. apply count_occ_rev. Qed.

Lemma occurrences_trim c s :
  not_ws c -> occurrences c (trim s) = occurrences c s.
Proof.
  intros Hc. unfold trim, trimEnd.
  rewrite occurrences_rev, occurrences_trimStart by assumption.
  rewrite occurrences_rev. now apply occurrences_trimStart.
Qed.

Lemma occurrences_replace_first c d s :
  d <> c ->
  occurrences c (replace_first c [d] s) = pred (occurrences c s).
Proof.
  intros Hd. unfold occurrences.
  induction s as [|x r IH]; [reflexivity|].
  cbn [replace_first]. destruct (x =? c) eqn:E.
  - apply N.eqb_eq in E. subst x. cbn [app count_occ].
    destruct (N.eq_dec d c); [contradiction|].
    destruct (N.eq_dec c c); [reflexivity | contradiction].
  - apply N.eqb_neq in E. cbn [count_occ].
    destruct (N.eq_dec x c); [contradiction | exact IH].
Qed.

Lemma occurrences_In c s : (0 < occurrences c s)%nat -> In c s.
Proof. intros H. now apply (count_occ_In N.eq_dec). Qed.

End NumberFacts.

(* ================================================================== *)
(** * The numeric parser and the threshold classification              *)
(* ================================================================== *)

Module AddLogSpec.
Import JS JSFacts NumberFacts AddLog Range.

Lemma parseNumber_nonempty val :
  trim val <> [] ->
  parseNumber val
  = if eqb (trim val) (lit "-") || eqb (trim val) (lit ".") || eqb (trim val) (lit "-.")
    then Nan
    else if negb (Number_isFinite
                    (StringToNumber (replace_first ch_comma [ch_dot] (trim val))))
         then Nan
         else Num (StringToNumber (replace_first ch_comma [ch_dot] (trim val))).
Proof.
  intros H. unfold parseNumber. destruct (trim val); [congruence | reflexivity].
Qed.

Lemma eqb_neq s t : s <> t -> eqb s t = false.
Proof.
  intros H. destruct (eqb s t) eqn:E; [|reflexivity].
  apply eqb_eq in E. contradiction.
Qed.

(** C5: [parseNumber] has three outcomes.  White-space-only input
    (which includes the empty string) gives [null]; an input whose
    trimmed text is [-], [.] or [-.] gives the invalid marker; any other
    input is parsed by [Number] after its comma has been replaced by a
    point, and gives the invalid marker when the result is NaN or
    infinite and the (finite) number otherwise.  [3,5] gives 3.5, that
    is 7 * 2^50 * 2^-51. *)
Theorem parseNumber_three_way :
  (forall val,
      Forall (fun c => is_white_space c = true) val -> parseNumber val = Null)
  /\ (forall val,
         trim val = lit "-" \/ trim val = lit "." \/ trim val = lit "-." ->
         parseNumber val = Nan)
  /\ (forall val,
         trim val <> [] -> trim val <> lit "-" ->
         trim val <> lit "." -> trim val <> lit "-." ->
         parseNumber val
         = match StringToNumber (replace_first ch_comma [ch_dot] (trim val)) with
           | S754_nan | S754_infinity _ => Nan
           | S754_zero _ as n | S754_finite _ _ _ as n => Num n
           end)
  /\ (forall val n, parseNumber val = Num n -> Number_isFinite n = true)
  /\ (forall val,
         parseNumber val = Null ->
         Forall (fun c => is_white_space c = true) val)
  /\ parseNumber (lit "") = Null
  /\ parseNumber (lit "-") = Nan
  /\ parseNumber (lit "3,5") = Num (S754_finite false (7 * 2 ^ 50) (-51))
  /\ parseNumber (lit "abc") = Nan
  /\ parseNumber (lit "1e400") = Nan.
Proof.
  split; [|split; [|split; [|split; [|split]]]].
  - intros val H. apply trim_nil_iff in H. unfold parseNumber. now rewrite H.
  - intros val H. rewrite parseNumber_nonempty.
    + destruct H as [-> | [-> | ->]]; reflexivity.
    + destruct H as [-> | [-> | ->]]; discriminate.
  - intros val H0 H1 H2 H3. rewrite (parseNumber_nonempty val H0).
    rewrite !eqb_neq by assumption. cbn [orb].
    destruct (StringToNumber _); reflexivity.
  - intros val n. unfold parseNumber. destruct (trim val); [discriminate|].
    destruct (_ || _); [discriminate|].
    destruct (Number_isFinite (StringToNumber _)) eqn:E; cbn [negb];
      [|discriminate].
    intros H. injection H as <-. exact E.
  - intros val H. apply trim_nil_iff. unfold parseNumber in H.
    destruct (trim val); [reflexivity|].
    destruct (_ || _); [discriminate|].
    destruct (negb _); discriminate.
  - repeat split; vm_compute; reflexivity.
Qed.

Lemma parseNumber_three_way_witness :
  parseNumber (lit "  ") = Null
  /\ parseNumber (lit " -. ") = Nan
  /\ parseNumber (lit " -0,25 ") = Num (S754_finite true (2 ^ 52) (-54)).
Proof.
  destruct parseNumber_three_way as (H1 & H2 & H3 & _).
  split; [|split].
  - apply H1. repeat constructor.
  - apply H2. right; right. vm_compute; reflexivity.
  - rewrite H3; try (vm_compute; discriminate). vm_compute; reflexivity.
Defined.

(** C10: [parseNumber] replaces the first comma only, so an input with
    two or more commas still holds a comma when it reaches [Number] and
    gives the invalid marker, while one comma is accepted; the keypad
    normalizer replaces every comma and leaves none. *)
Theorem parseNumber_two_commas :
  (forall val, (2 <= occurrences ch_comma val)%nat -> parseNumber val = Nan)
  /\ parseNumber (lit "1,2,3") = Nan
  /\ parseNumber (lit "1,2") = Num (S754_finite false 5404319552844595 (-52))
  /\ TempKeypad.normalizeInput (lit "1,2,3") TempKeypad.signed_decimal = lit "1.23"
  /\ (forall raw mode, ~ In ch_comma (TempKeypad.normalizeInput raw mode)).
Proof.
  split; [|split; [|split; [|split]]]; try (vm_compute; reflexivity).
  - intros val H.
    rewrite <- (occurrences_trim ch_comma val eq_refl) in H.
    assert (Hne : trim val <> []).
    { intros E. rewrite E in H. simpl in H. lia. }
    rewrite (parseNumber_nonempty val Hne).
    assert (Hk : forall k, (occurrences ch_comma k < 2)%nat -> eqb (trim val) k = false).
    { intros k Hk. apply eqb_neq. intros E. rewrite E in H. lia. }
    rewrite !Hk by (vm_compute; lia). cbn [orb].
    rewrite StringToNumber_comma; [reflexivity|].
    apply occurrences_In.
    rewrite occurrences_replace_first by discriminate. lia.
  - exact KeypadSpec.normalizeInput_no_comma.
Qed.

Lemma parseNumber_two_commas_witness :
  (2 <= occurrences ch_comma (lit " 12,345,678.9 "))%nat
  /\ parseNumber (lit " 12,345,678.9 ") = Nan.
Proof.
  split; [vm_compute; lia|].
  apply (proj1 parseNumber_two_commas). vm_compute; lia.
Defined.

(** ** The auto-warning effect *)

Lemma classifyRange_warning ch t :
  classifyRange ch t = warning <-> out_of_range ch t.
Proof.
  unfold classifyRange, out_of_range.
  destruct (minTemp ch) as [mn|], (maxTemp ch) as [mx|].
  - destruct (lt t mn) eqn:L, (gt t mx) eqn:G; cbn [orb]; split;
      try reflexivity; try discriminate; eauto.
    intros [(m & E & H) | (m & E & H)]; injection E as <-; congruence.
  - destruct (lt t mn) eqn:L; cbn [orb]; split;
      try reflexivity; try discriminate; eauto.
    intros [(m & E & H) | (m & E & H)]; [injection E as <-; congruence | discriminate].
  - destruct (gt t mx) eqn:G; cbn [orb]; split;
      try reflexivity; try discriminate; eauto.
    intros [(m & E & H) | (m & E & H)]; [discriminate | injection E as <-; congruence].
  - split; [discriminate|]. intros [(m & E & _) | (m & E & _)]; discriminate.
Qed.

Lemma classifyRange_cases ch t :
  classifyRange ch t = ok \/ classifyRange ch t = warning.
Proof.
  unfold classifyRange.
  destruct (minTemp ch), (maxTemp ch); try (now left);
    match goal with |- context [if ?b then _ else _] => destruct b end; auto.
Qed.

Lemma effect_parsed ch tempC status t :
  parseNumber tempC = Num t -> status <> damaged ->
  autoWarningEffect (Some ch) tempC status = classifyRange ch t.
Proof.
  intros Hp Hs. unfold autoWarningEffect. rewrite Hp.
  destruct status; try reflexivity. congruence.
Qed.

(** C3: the status after the effect is [damaged] if and only if it was
    [damaged] before.  A [damaged] status is left as it is for every
    chiller and temperature text; from a status other than [damaged]
    the effect never produces [damaged], and when it recomputes the
    status the result is [ok] or [warning]. *)
Theorem autoWarningEffect_damaged_iff :
  (forall chiller tempC, autoWarningEffect chiller tempC damaged = damaged)
  /\ (forall chiller tempC status,
         status <> damaged -> autoWarningEffect chiller tempC status <> damaged)
  /\ (forall chiller tempC status,
         autoWarningEffect chiller tempC status = damaged <-> status = damaged)
  /\ (forall ch tempC status t,
         parseNumber tempC = Num t -> status <> damaged ->
         autoWarningEffect (Some ch) tempC status = ok
         \/ autoWarningEffect (Some ch) tempC status = warning).
Proof.
  assert (H1 : forall chiller tempC, autoWarningEffect chiller tempC damaged = damaged).
  { intros [ch|] tempC; [|reflexivity]. unfold autoWarningEffect.
    destruct (parseNumber tempC); reflexivity. }
  assert (H2 : forall chiller tempC status,
             status <> damaged -> autoWarningEffect chiller tempC status <> damaged).
  { intros [ch|] tempC status Hs; [|exact Hs]. unfold autoWarningEffect.
    destruct (parseNumber tempC) as [| |t]; try exact Hs.
    destruct (Status_eqb status damaged); [exact Hs|].
    destruct (classifyRange_cases ch t) as [-> | ->]; discriminate. }
  split; [exact H1|]. split; [exact H2|]. split.
  - intros chiller tempC status. split.
    + intros H. destruct status; try reflexivity;
        exfalso; revert H; apply H2; discriminate.
    + intros ->. apply H1.
  - intros ch tempC status t Hp Hs. rewrite (effect_parsed _ _ _ _ Hp Hs).
    apply classifyRange_cases.
Qed.

Lemma autoWarningEffect_damaged_iff_witness :
  autoWarningEffect (Some chiller_2_8) (lit "99") warning <> damaged
  /\ (autoWarningEffect (Some chiller_2_8) (lit "99") ok = ok
      \/ autoWarningEffect (Some chiller_2_8) (lit "99") ok = warning).
Proof.
  destruct autoWarningEffect_damaged_iff as (_ & H2 & _ & H4).
  split.
  - apply H2. discriminate.
  - apply (H4 chiller_2_8 (lit "99") ok (of_Z 99)).
    + vm_compute; reflexivity.
    + discriminate.
Defined.

(** C4: for a temperature text that parses to the number [t] and a
    status other than [damaged], the effect sets [ok] when both bounds
    are absent; otherwise it sets [warning] exactly when [minTemp] is
    present with [t < minTemp] or [maxTemp] is present with
    [t > maxTemp], and [ok] when neither holds.  With the range 2 to 8:
    10 and 1 give [warning], 5 gives [ok], and the bounds 2 and 8
    themselves give [ok]. *)
Theorem autoWarningEffect_range :
  (forall ch tempC status t,
      parseNumber tempC = Num t -> status <> damaged ->
      (minTemp ch = None -> maxTemp ch = None ->
       autoWarningEffect (Some ch) tempC status = ok)
      /\ (out_of_range ch t -> autoWarningEffect (Some ch) tempC status = warning)
      /\ (~ out_of_range ch t -> autoWarningEffect (Some ch) tempC status = ok))
  /\ autoWarningEffect (Some chiller_2_8) (lit "10") ok = warning
  /\ autoWarningEffect (Some chiller_2_8) (lit "5") ok = ok
  /\ autoWarningEffect (Some chiller_2_8) (lit "5") warning = ok
  /\ autoWarningEffect (Some chiller_2_8) (lit "1") ok = warning
  /\ autoWarningEffect (Some chiller_2_8) (lit "2") warning = ok
  /\ autoWarningEffect (Some chiller_2_8) (lit "8") warning = ok
  /\ autoWarningEffect (Some chiller_2_8) (lit "8.01") ok = warning
  /\ autoWarningEffect (Some chiller_2_8) (lit "1,99") ok = warning
  /\ autoWarningEffect (Some {| minTemp := None; maxTemp := None |})
                       (lit "-40") warning = ok.
Proof.
  split; [|repeat split; vm_compute; reflexivity].
  intros ch tempC status t Hp Hs. rewrite (effect_parsed _ _ _ _ Hp Hs).
  split; [|split].
  - intros Hmin Hmax. unfold classifyRange. now rewrite Hmin, Hmax.
  - apply classifyRange_warning.
  - intros Hn. destruct (classifyRange_cases ch t) as [H | H]; [exact H|].
    apply classifyRange_warning in H. contradiction.
Qed.

Lemma autoWarningEffect_range_witness :
  parseNumber (lit "-3,5") = Num (S754_finite true (7 * 2 ^ 50) (-51))
  /\ warning <> damaged
  /\ out_of_range chiller_2_8 (S754_finite true (7 * 2 ^ 50) (-51))
  /\ autoWarningEffect (Some chiller_2_8) (lit "-3,5") warning = warning.
Proof.
  assert (Hp : parseNumber (lit "-3,5") = Num (S754_finite true (7 * 2 ^ 50) (-51)))
    by (vm_compute; reflexivity).
  assert (Ho : out_of_range chiller_2_8 (S754_finite true (7 * 2 ^ 50) (-51))).
  { left. exists (of_Z 2). split; vm_compute; reflexivity. }
  split; [exact Hp|]. split; [discriminate|]. split; [exact Ho|].
  refine (proj1 (proj2 (proj1 autoWarningEffect_range chiller_2_8 (lit "-3,5") warning
                          _ Hp _)) Ho).
  discriminate.
Defined.

End AddLogSpec.


(* ================================================================== *)
(** * The keys of the keypad                                           *)
(* ================================================================== *)

Module KeypadKeys.
Import JS JSFacts Regex RegexFacts TempKeypad KeypadNotions KeypadSpec.

Lemma body_head_not_minus c r :
  forallb digit_or_dot (c :: r) = true -> (ch_minus =? c) = false.
Proof.
  cbn [forallb]. intros H. apply andb_true_iff in H. destruct H as [H _].
  unfold digit_or_dot, is_digit, ch_minus, ch_dot in *. by_class. class_lia.
Qed.

Lemma forallb_snoc {A} (f : A -> bool) l a :
  forallb f (l ++ [a]) = forallb f l && f a.
Proof. rewrite forallb_app. simpl. now rewrite andb_true_r. Qed.

Lemma forallb_removelast {A} (f : A -> bool) l :
  forallb f l = true -> forallb f (removelast l) = true.
Proof.
  induction l as [|a l IH]; [reflexivity|]. intros H.
  simpl in H. apply andb_true_iff in H. destruct H as [Ha Hl].
  destruct l as [|b l]; [reflexivity|].
  change (removelast (a :: b :: l)) with (a :: removelast (b :: l)).
  simpl forallb at 1. rewrite Ha. simpl. now apply IH.
Qed.

Lemma includes_app s t c : includes (s ++ t) c = includes s c || includes t c.
Proof. unfold includes. apply existsb_app. Qed.

Lemma digits_no_point l : forallb is_digit l = true -> includes l ch_dot = false.
Proof.
  induction l as [|c l IH]; [reflexivity|]. simpl. intros H.
  apply andb_true_iff in H. destruct H as [Hc Hl].
  destruct (is_digit_other c Hc) as (-> & _ & _). simpl. now apply IH.
Qed.

(** ** [appendChar] on a buffer of the grammar *)

Lemma appendChar_sign_valid cur :
  is_buffer true cur -> is_buffer true (appendChar cur [ch_plus_minus] signed_decimal).
Proof.
  intros (sign & ip & frac & -> & Hs & Hip & Hf).
  pose proof (buffer_body ip frac Hip Hf) as Hb.
  unfold appendChar. cbn [eqb]. rewrite N.eqb_refl. cbn [andb Mode_eqb negb].
  destruct Hs as [-> | [_ ->]]; cbn [app].
  - destruct (ip ++ frac) as [|c r] eqn:E.
    + exists [ch_minus], [], []. repeat split; auto.
    + cbn [startsWith]. rewrite (body_head_not_minus c r Hb). cbn [andb].
      rewrite <- E. exists [ch_minus], ip, frac. repeat split; auto.
  - cbn [startsWith]. rewrite N.eqb_refl. cbn [andb slice_from skipn].
    exists [], ip, frac. repeat split; auto.
Qed.

Lemma appendChar_point_valid a cur mode :
  is_buffer a cur -> is_buffer a (appendChar cur [ch_dot] mode).
Proof.
  intros (sign & ip & frac & -> & Hs & Hip & Hf).
  unfold appendChar. cbn [eqb].
  change (ch_dot =? ch_plus_minus) with false. cbn [andb].
  rewrite N.eqb_refl. cbn [andb].
  destruct (sign ++ ip ++ frac) as [|c r] eqn:E.
  - exists [], (lit "0"), [ch_dot]. repeat split; auto.
    right. exists []. auto.
  - rewrite <- E. destruct (includes (sign ++ ip ++ frac) ch_dot) eqn:I.
    + exists sign, ip, frac. repeat split; auto.
    + destruct Hf as [-> | (fp & -> & _)].
      * exists sign, ip, [ch_dot]. rewrite app_nil_r, <- app_assoc.
        repeat split; auto. right. exists []. auto.
      * rewrite !includes_app in I. cbn in I.
        rewrite !orb_true_r in I. discriminate.
Qed.

Lemma appendChar_digit cur d mode :
  is_digit d = true -> appendChar cur [d] mode = cur ++ [d].
Proof.
  intros Hd. unfold appendChar. cbn [eqb is_one_digit].
  replace (d =? ch_plus_minus) with false
    by (symmetry; unfold is_digit, ch_plus_minus in *; by_class; class_lia).
  destruct (is_digit_other d Hd) as (-> & _ & _). cbn [andb]. now rewrite Hd.
Qed.

Lemma snoc_digit_valid a cur d :
  is_digit d = true -> is_buffer a cur -> is_buffer a (cur ++ [d]).
Proof.
  intros Hd (sign & ip & frac & -> & Hs & Hip & Hf).
  destruct Hf as [-> | (fp & -> & Hfp)].
  - exists sign, (ip ++ [d]), []. rewrite !app_nil_r, <- app_assoc.
    repeat split; auto. now rewrite forallb_snoc, Hip, Hd.
  - exists sign, ip, (ch_dot :: fp ++ [d]). rewrite <- !app_assoc.
    repeat split; auto. right. eexists. split; [reflexivity|].
    now rewrite forallb_snoc, Hfp, Hd.
Qed.

Lemma appendChar_valid cur ch mode :
  is_buffer (Mode_eqb mode signed_decimal) cur -> is_buffer (Mode_eqb mode signed_decimal) (appendChar cur ch mode).
Proof.
  intros H. destruct (eqb ch [ch_plus_minus]) eqn:Es.
  { apply eqb_eq in Es. subst ch. destruct mode.
    - now apply appendChar_sign_valid.
    - exact H. }
  destruct (eqb ch [ch_dot]) eqn:Ed.
  { apply eqb_eq in Ed. subst ch. now apply appendChar_point_valid. }
  destruct (is_one_digit ch) eqn:E1.
  - destruct ch as [|d [|? ?]]; try discriminate. cbn in E1.
    rewrite (appendChar_digit _ _ _ E1). now apply snoc_digit_valid.
  - unfold appendChar. now rewrite Es, Ed, E1.
Qed.

(** ** [backspace] on a buffer of the grammar *)

Lemma backspace_valid a cur : is_buffer a cur -> is_buffer a (backspace cur).
Proof.
  intros (sign & ip & frac & -> & Hs & Hip & Hf).
  assert (Hr : is_buffer a (removelast (sign ++ ip ++ frac))).
  { destruct Hf as [-> | (fp & -> & Hfp)].
    - rewrite app_nil_r. destruct ip as [|c ip].
      + rewrite app_nil_r. exists [], [], [].
        destruct Hs as [-> | [_ ->]]; repeat split; auto.
      + rewrite removelast_app by discriminate.
        exists sign, (removelast (c :: ip)), []. rewrite app_nil_r.
        repeat split; auto. now apply forallb_removelast.
    - rewrite app_assoc. destruct fp as [|c fp].
      + rewrite removelast_last. exists sign, ip, []. rewrite app_nil_r.
        repeat split; auto.
      + change (ch_dot :: c :: fp) with ([ch_dot] ++ c :: fp).
        rewrite app_assoc, removelast_app by discriminate.
        rewrite <- !app_assoc.
        exists sign, ip, (ch_dot :: removelast (c :: fp)).
        repeat split; auto. right. eexists. split; [reflexivity|].
        now apply forallb_removelast. }
  unfold backspace, slice_drop_last.
  destruct (sign ++ ip ++ frac) eqn:E; [|exact Hr].
  exists [], [], []. repeat split; auto.
Qed.

(** ** The handlers *)

Lemma pressKey_valid_eq value k mode :
  is_buffer (Mode_eqb mode signed_decimal) value -> pressKey value k mode = appendChar value k mode.
Proof. intros H. apply normalizeInput_fixed. now apply appendChar_valid. Qed.

Lemma pressBackspace_valid_eq value mode :
  is_buffer (Mode_eqb mode signed_decimal) value -> pressBackspace value mode = backspace value.
Proof. intros H. apply normalizeInput_fixed. now apply backspace_valid. Qed.

Lemma press_valid mode value k :
  is_buffer (Mode_eqb mode signed_decimal) value ->
  is_buffer (Mode_eqb mode signed_decimal) (press mode value k).
Proof.
  intros H. destruct k; cbn [press]; try apply normalizeInput_is_buffer.
  destruct mode; [apply normalizeInput_is_buffer | exact H].
Qed.

Lemma pressAll_valid mode ks value :
  is_buffer (Mode_eqb mode signed_decimal) value -> is_buffer (Mode_eqb mode signed_decimal) (pressAll mode value ks).
Proof.
  unfold pressAll. revert value. induction ks as [|k ks IH]; intros value H.
  - exact H.
  - cbn [fold_left]. apply IH. now apply press_valid.
Qed.

Lemma empty_valid a : is_buffer a [].
Proof. exists [], [], []. repeat split; auto. Qed.

(** ** Counting points *)

Lemma includes_occurrences s c :
  occurrences c s = if includes s c then S (pred (occurrences c s)) else 0%nat.
Proof.
  unfold occurrences, includes. induction s as [|x r IH]; [reflexivity|].
  cbn [count_occ existsb]. destruct (N.eq_dec x c) as [->|Hn].
  - rewrite N.eqb_refl. reflexivity.
  - apply N.eqb_neq in Hn. rewrite Hn. exact IH.
Qed.

Lemma digits_point_free l : forallb is_digit l = true -> occurrences ch_dot l = 0%nat.
Proof.
  intros H. rewrite includes_occurrences. now rewrite (digits_no_point l H).
Qed.

Lemma occurrences_app c s t :
  occurrences c (s ++ t) = (occurrences c s + occurrences c t)%nat.
Proof. apply count_occ_app. Qed.

Lemma buffer_points a s :
  is_buffer a s ->
  occurrences ch_dot s = if includes s ch_dot then 1%nat else 0%nat.
Proof.
  intros (sign & ip & frac & -> & Hs & Hip & Hf).
  assert (Hsign : occurrences ch_dot sign = 0%nat /\ includes sign ch_dot = false).
  { destruct Hs as [-> | [_ ->]]; split; reflexivity. }
  destruct Hsign as [Hs1 Hs2].
  rewrite !occurrences_app, !includes_app, Hs1, Hs2.
  rewrite (digits_point_free ip Hip), (digits_no_point ip Hip).
  destruct Hf as [-> | (fp & -> & Hfp)]; [reflexivity|].
  cbn [orb]. unfold occurrences at 1. cbn [count_occ includes existsb].
  destruct (N.eq_dec ch_dot ch_dot) as [_|Hn]; [|contradiction].
  rewrite N.eqb_refl. cbn [orb plus].
  fold (occurrences ch_dot fp). now rewrite (digits_point_free fp Hfp).
Qed.

(** ** The handlers on buffers of the grammar *)

(** X1: on a buffer of the grammar of the mode, [appendChar] with any
    key label gives a buffer of the grammar again, so the sanitizing
    pass of the key handler changes nothing. *)
Theorem appendChar_keeps_grammar value k mode :
  is_buffer (Mode_eqb mode signed_decimal) value ->
  is_buffer (Mode_eqb mode signed_decimal) (appendChar value k mode)
  /\ pressKey value k mode = appendChar value k mode.
Proof.
  intros H. split; [now apply appendChar_valid | now apply pressKey_valid_eq].
Qed.

Lemma appendChar_keeps_grammar_witness :
  is_buffer true (lit "-12.5")
  /\ pressKey (lit "-12.5") [ch_plus_minus] signed_decimal = lit "12.5".
Proof.
  assert (H : is_buffer (Mode_eqb signed_decimal signed_decimal) (lit "-12.5")).
  { exists (lit "-"), (lit "12"), (lit ".5"). repeat split; auto.
    right. exists (lit "5"). auto. }
  split; [exact H|].
  rewrite (proj2 (appendChar_keeps_grammar (lit "-12.5") [ch_plus_minus] signed_decimal H)).
  reflexivity.
Defined.

(** X2: [backspace] on a buffer of the grammar gives a buffer of the
    grammar, which the sanitizing pass of the handler leaves as it is;
    on the empty buffer it gives the empty buffer. *)
Theorem backspace_keeps_grammar value mode :
  is_buffer (Mode_eqb mode signed_decimal) value ->
  is_buffer (Mode_eqb mode signed_decimal) (backspace value)
  /\ pressBackspace value mode = backspace value
  /\ pressBackspace [] mode = [].
Proof.
  intros H. split; [now apply backspace_valid|].
  split; [now apply pressBackspace_valid_eq|].
  apply pressBackspace_valid_eq, empty_valid.
Qed.

Lemma backspace_keeps_grammar_witness :
  is_buffer false (lit "7.")
  /\ pressBackspace (lit "7.") unsigned_decimal = lit "7".
Proof.
  assert (H : is_buffer (Mode_eqb unsigned_decimal signed_decimal) (lit "7.")).
  { exists [], (lit "7"), (lit "."). repeat split; auto. right. exists []. auto. }
  split; [exact H|].
  rewrite (proj1 (proj2 (backspace_keeps_grammar (lit "7.") unsigned_decimal H))).
  reflexivity.
Defined.

(** X3: in signed mode, pressing the sign key twice on a buffer of the
    grammar gives the buffer back. *)
Theorem sign_key_twice value :
  is_buffer true value ->
  pressKey (pressKey value [ch_plus_minus] signed_decimal)
           [ch_plus_minus] signed_decimal = value.
Proof.
  intros H.
  rewrite (pressKey_valid_eq value _ signed_decimal H).
  rewrite (pressKey_valid_eq _ _ signed_decimal (appendChar_sign_valid value H)).
  destruct H as (sign & ip & frac & -> & Hs & Hip & Hf).
  pose proof (buffer_body ip frac Hip Hf) as Hb.
  unfold appendChar. cbn [eqb]. rewrite N.eqb_refl. cbn [andb Mode_eqb negb].
  destruct Hs as [-> | [_ ->]]; cbn [app].
  - destruct (ip ++ frac) as [|c r] eqn:E; [reflexivity|].
    cbn [startsWith]. rewrite (body_head_not_minus c r Hb). cbn [andb].
    cbn [startsWith]. rewrite N.eqb_refl. reflexivity.
  - cbn [startsWith]. rewrite N.eqb_refl. cbn [andb slice_from skipn].
    destruct (ip ++ frac) as [|c r] eqn:E; [reflexivity|].
    cbn [startsWith]. now rewrite (body_head_not_minus c r Hb).
Qed.

Lemma sign_key_twice_witness :
  is_buffer true (lit "-.5")
  /\ pressKey (pressKey (lit "-.5") [ch_plus_minus] signed_decimal)
              [ch_plus_minus] signed_decimal = lit "-.5".
Proof.
  assert (H : is_buffer true (lit "-.5")).
  { exists (lit "-"), [], (lit ".5"). repeat split; auto. right. exists (lit "5"). auto. }
  split; [exact H | exact (sign_key_twice (lit "-.5") H)].
Defined.

(** X4: on a buffer of the grammar the backspace key undoes a digit key,
    and it undoes the point key when the buffer is not empty and holds
    no point; on the empty buffer the point key gives [0.], of which
    backspace leaves [0]. *)
Theorem backspace_undoes_key value mode :
  is_buffer (Mode_eqb mode signed_decimal) value ->
  (forall d, is_digit d = true ->
             pressBackspace (pressKey value [d] mode) mode = value)
  /\ (value <> [] -> includes value ch_dot = false ->
      pressBackspace (pressKey value [ch_dot] mode) mode = value)
  /\ pressBackspace (pressKey [] [ch_dot] mode) mode = lit "0".
Proof.
  intros H. split; [|split].
  - intros d Hd.
    rewrite (pressKey_valid_eq value [d] mode H).
    rewrite pressBackspace_valid_eq by now apply appendChar_valid.
    rewrite (appendChar_digit _ _ _ Hd).
    unfold backspace, slice_drop_last. rewrite removelast_last.
    destruct (value ++ [d]) eqn:E; [|reflexivity].
    now apply app_eq_nil in E.
  - intros Hne Hi.
    rewrite (pressKey_valid_eq value [ch_dot] mode H).
    rewrite pressBackspace_valid_eq by now apply appendChar_valid.
    unfold appendChar. cbn [eqb].
    change (ch_dot =? ch_plus_minus) with false. cbn [andb].
    rewrite N.eqb_refl. cbn [andb]. rewrite Hi.
    destruct value as [|c r]; [congruence|].
    unfold backspace, slice_drop_last. rewrite removelast_last.
    destruct ((c :: r) ++ [ch_dot]) eqn:E; [discriminate | reflexivity].
  - rewrite (pressKey_valid_eq [] [ch_dot] mode (empty_valid _)).
    rewrite pressBackspace_valid_eq by (apply appendChar_valid, empty_valid).
    reflexivity.
Qed.

Lemma backspace_undoes_key_witness :
  is_buffer true (lit "-3")
  /\ pressBackspace (pressKey (lit "-3") (lit "7") signed_decimal) signed_decimal
     = lit "-3"
  /\ pressBackspace (pressKey (lit "-3") [ch_dot] signed_decimal) signed_decimal
     = lit "-3".
Proof.
  assert (H : is_buffer (Mode_eqb signed_decimal signed_decimal) (lit "-3")).
  { exists (lit "-"), (lit "3"), []. repeat split; auto. }
  destruct (backspace_undoes_key (lit "-3") signed_decimal H) as (H1 & H2 & _).
  split; [exact H|]. split.
  - apply H1. reflexivity.
  - apply H2; [discriminate | reflexivity].
Defined.

(** X5: after the point key a buffer of the grammar holds exactly one
    point, and a buffer that already holds a point is left unchanged. *)
Theorem point_key_one_point value mode :
  is_buffer (Mode_eqb mode signed_decimal) value ->
  occurrences ch_dot (pressKey value [ch_dot] mode) = 1%nat
  /\ (includes value ch_dot = true -> pressKey value [ch_dot] mode = value).
Proof.
  intros H. rewrite (pressKey_valid_eq value [ch_dot] mode H).
  pose proof (buffer_points _ _ H) as Hp.
  unfold appendChar. cbn [eqb].
  change (ch_dot =? ch_plus_minus) with false. cbn [andb].
  rewrite N.eqb_refl. cbn [andb].
  destruct value as [|c r]; [split; [reflexivity | discriminate]|].
  destruct (includes (c :: r) ch_dot) eqn:I.
  - split; [exact Hp | reflexivity].
  - split; [|discriminate]. rewrite occurrences_app, Hp. reflexivity.
Qed.

Lemma point_key_one_point_witness :
  is_buffer true (lit "-1.5")
  /\ occurrences ch_dot (pressKey (lit "-1.5") [ch_dot] signed_decimal) = 1%nat.
Proof.
  assert (H : is_buffer (Mode_eqb signed_decimal signed_decimal) (lit "-1.5")).
  { exists (lit "-"), (lit "1"), (lit ".5"). repeat split; auto.
    right. exists (lit "5"). auto. }
  split; [exact H | exact (proj1 (point_key_one_point (lit "-1.5") signed_decimal H))].
Defined.

(** ** Sequences of keys *)

Lemma press_valid_eq mode value k :
  is_buffer (Mode_eqb mode signed_decimal) value ->
  press mode value k = pressRaw mode value k.
Proof.
  intros H. destruct k; cbn [press pressRaw].
  - now apply pressKey_valid_eq.
  - now apply pressKey_valid_eq.
  - destruct mode; [now apply pressKey_valid_eq | reflexivity].
  - now apply pressBackspace_valid_eq.
Qed.

Lemma pressAll_raw mode ks value :
  is_buffer (Mode_eqb mode signed_decimal) value ->
  pressAll mode value ks = fold_left (pressRaw mode) ks value.
Proof.
  unfold pressAll. revert value. induction ks as [|k ks IH]; intros value H.
  - reflexivity.
  - cbn [fold_left]. rewrite <- (press_valid_eq mode value k H).
    apply IH. now apply press_valid.
Qed.

(** X6: typing digit keys one after the other appends exactly these
    digits to a buffer of the grammar; from the empty buffer the result
    is the typed digit string. *)
Theorem typing_digits mode value ds :
  is_buffer (Mode_eqb mode signed_decimal) value ->
  forallb is_digit ds = true ->
  pressAll mode value (digit_keys ds) = value ++ ds.
Proof.
  revert value. induction ds as [|d ds IH]; intros value H Hd.
  - cbn. now rewrite app_nil_r.
  - cbn [forallb] in Hd. apply andb_true_iff in Hd. destruct Hd as [Hd Hds].
    unfold pressAll, digit_keys in *. cbn [map fold_left press].
    rewrite (pressKey_valid_eq value [d] mode H), (appendChar_digit _ _ _ Hd).
    rewrite IH; [now rewrite <- app_assoc | now apply snoc_digit_valid | exact Hds].
Qed.

Lemma typing_digits_witness :
  pressAll unsigned_decimal [] (digit_keys (lit "0042")) = lit "0042".
Proof.
  exact (typing_digits unsigned_decimal [] (lit "0042") (empty_valid _) eq_refl).
Defined.

(** X7: whatever keys are pressed, starting from the empty buffer, the
    buffer handed to [onChange] is a word of the grammar of the mode,
    and it is the buffer that [appendChar] and [backspace] alone
    produce: the sanitizing pass never alters keypad input. *)
Theorem keypad_buffers_in_grammar mode ks :
  matches (buffer_re mode) (pressAll mode [] ks)
  /\ is_buffer (Mode_eqb mode signed_decimal) (pressAll mode [] ks)
  /\ pressAll mode [] ks = fold_left (pressRaw mode) ks [].
Proof.
  pose proof (pressAll_valid mode ks [] (empty_valid _)) as H.
  split; [now apply is_buffer_matches|]. split; [exact H|].
  apply pressAll_raw, empty_valid.
Qed.

End KeypadKeys.


(* ================================================================== *)
(** * Keypad buffers read by [Number]                                  *)
(* ================================================================== *)

Module KeypadNumber.
Import JS JSFacts Regex TempKeypad KeypadNotions KeypadSpec NumberFacts AddLog.

(** ** Rounding never produces NaN *)

Lemma shr_1_nonneg mrs : (0 <= shr_m mrs)%Z -> (0 <= shr_m (shr_1 mrs))%Z.
Proof.
  destruct mrs as [m r s]. destruct m as [|[p|p|]|[p|p|]]; cbn; lia.
Qed.

Lemma iter_shr_1_nonneg p mrs :
  (0 <= shr_m mrs)%Z -> (0 <= shr_m (iter_pos shr_1 p mrs))%Z.
Proof.
  revert mrs. induction p as [p IH|p IH|]; intros mrs H; cbn [iter_pos].
  - apply IH, IH, shr_1_nonneg, H.
  - apply IH, IH, H.
  - apply shr_1_nonneg, H.
Qed.

Lemma shr_fexp_nonneg m e l :
  (0 <= m)%Z -> (0 <= shr_m (fst (shr_fexp prec emax m e l)))%Z.
Proof.
  intros H. unfold shr_fexp, shr.
  assert (H0 : (0 <= shr_m (shr_record_of_loc m l))%Z)
    by (destruct l as [|[]]; exact H).
  destruct (fexp prec emax (Zdigits2 m + e) - e)%Z; cbn [fst]; auto.
  now apply iter_shr_1_nonneg.
Qed.

Lemma round_nearest_even_nonneg m l :
  (0 <= m)%Z -> (0 <= round_nearest_even m l)%Z.
Proof.
  intros H. unfold round_nearest_even.
  destruct l as [|[]]; try destruct (Z.even m); lia.
Qed.

Lemma binary_round_aux_not_nan sx mx ex lx :
  (0 <= mx)%Z -> binary_round_aux prec emax sx mx ex lx <> S754_nan.
Proof.
  intros H. unfold binary_round_aux.
  pose proof (shr_fexp_nonneg mx ex lx H) as H1.
  destruct (shr_fexp prec emax mx ex lx) as [mrs' e']. cbn [fst] in H1.
  pose proof (shr_fexp_nonneg _ e' loc_Exact
                (round_nearest_even_nonneg _ (loc_of_shr_record mrs') H1)) as H2.
  destruct (shr_fexp prec emax _ e' loc_Exact) as [mrs'' e'']. cbn [fst] in H2.
  destruct (shr_m mrs'') as [|m|m]; [discriminate | | lia].
  destruct (e'' <=? emax - prec)%Z; discriminate.
Qed.

Lemma binary_normalize_not_nan m e szero :
  binary_normalize prec emax m e szero <> S754_nan.
Proof.
  unfold binary_normalize, binary_round.
  destruct m as [|p|p]; [discriminate | |];
    destruct (shl_align p e _) as [mz ez]; apply binary_round_aux_not_nan; lia.
Qed.

Lemma SFdiv_finite_not_nan sx mx ex sy my ey :
  SFdiv prec emax (S754_finite sx mx ex) (S754_finite sy my ey) <> S754_nan.
Proof.
  cbn [SFdiv]. unfold SFdiv_core_binary.
  set (m' := match (ex - ey - _)%Z with Z0 => _ | Zpos _ => _ | Zneg _ => _ end).
  assert (Hm : (0 <= m')%Z).
  { subst m'. destruct (ex - ey - _)%Z; try lia. apply Z.shiftl_nonneg. lia. }
  destruct (Z.div_eucl m' (Z.pos my)) as [q r] eqn:E.
  assert (Hq : q = (m' / Z.pos my)%Z) by (unfold Z.div; now rewrite E).
  apply binary_round_aux_not_nan. rewrite Hq. apply Z.div_pos; lia.
Qed.

Lemma round_decimal_not_nan neg m e : round_decimal neg m e <> NaN.
Proof.
  unfold round_decimal, NaN. destruct m as [|p|p]; try discriminate.
  destruct e as [|k|k].
  - apply binary_normalize_not_nan.
  - apply binary_normalize_not_nan.
  - apply SFdiv_finite_not_nan.
Qed.

(** ** [Number] on a buffer of the grammar *)

Lemma span_digits ip rest :
  forallb is_digit ip = true ->
  match rest with [] => True | c :: _ => is_digit c = false end ->
  span is_digit (ip ++ rest) = (ip, rest).
Proof.
  intros Hip Hr. induction ip as [|c ip IH]; cbn [app].
  - destruct rest as [|c r]; [reflexivity|]. cbn [span]. now rewrite Hr.
  - cbn [forallb] in Hip. apply andb_true_iff in Hip. destruct Hip as [Hc Hip].
    cbn [span]. rewrite Hc, (IH Hip). reflexivity.
Qed.

Lemma parse_unsigned_body ip frac :
  forallb is_digit ip = true ->
  (frac = [] \/ exists fp, frac = ch_dot :: fp /\ forallb is_digit fp = true) ->
  (no_digits ip frac -> parse_StrUnsignedDecimalLiteral (ip ++ frac) = None)
  /\ (~ no_digits ip frac ->
      exists m e, parse_StrUnsignedDecimalLiteral (ip ++ frac) = Some (MV_Decimal m e)).
Proof.
  intros Hip Hf. pose proof (buffer_body ip frac Hip Hf) as Hb.
  assert (Hinf : eqb (ip ++ frac) (lit "Infinity") = false).
  { destruct (eqb (ip ++ frac) (lit "Infinity")) eqn:E; [|reflexivity].
    apply eqb_eq in E. rewrite E in Hb. discriminate Hb. }
  unfold parse_StrUnsignedDecimalLiteral, no_digits. rewrite Hinf.
  destruct Hf as [-> | (fp & -> & Hfp)].
  - rewrite (span_digits ip [] Hip I). split.
    + intros [-> _]. reflexivity.
    + intros Hn. destruct ip as [|c ip']; [exfalso; apply Hn; auto|]. eauto.
  - rewrite (span_digits ip (ch_dot :: fp) Hip eq_refl).
    rewrite N.eqb_refl. pose proof (span_digits fp [] Hfp I) as Hs.
    rewrite app_nil_r in Hs. rewrite Hs. cbn [parse_ExponentPart]. split.
    + intros [-> [H | H]]; [discriminate|]. injection H as ->. reflexivity.
    + intros Hn. destruct ip as [|c ip'], fp as [|d fp']; eauto.
      exfalso. apply Hn. auto.
Qed.

Lemma body_not_ws l : forallb digit_or_dot l = true -> Forall not_ws l.
Proof.
  intros H. apply Forall_forall. intros c Hc.
  rewrite forallb_forall in H. specialize (H c Hc).
  unfold digit_or_dot, is_digit, ch_dot, not_ws in *. by_class.
  unfold is_white_space in *. class_lia.
Qed.

Lemma buffer_not_ws a s : is_buffer a s -> Forall not_ws s.
Proof.
  intros (sign & ip & frac & -> & Hs & Hip & Hf).
  apply Forall_app. split.
  - destruct Hs as [-> | [_ ->]]; repeat constructor.
  - apply body_not_ws. now apply buffer_body.
Qed.

Lemma buffer_no_comma a s : is_buffer a s -> replace_first ch_comma [ch_dot] s = s.
Proof.
  intros (sign & ip & frac & -> & Hs & Hip & Hf).
  pose proof (buffer_body ip frac Hip Hf) as Hb.
  assert (H : forall l, forallb digit_or_dot l = true ->
                        replace_first ch_comma [ch_dot] l = l).
  { induction l as [|c l IH]; [reflexivity|]. cbn [forallb replace_first].
    intros H. apply andb_true_iff in H. destruct H as [Hc Hl].
    replace (c =? ch_comma) with false; [now rewrite IH|].
    symmetry. unfold digit_or_dot, is_digit, ch_dot, ch_comma in *.
    by_class. class_lia. }
  destruct Hs as [-> | [_ ->]]; cbn [app replace_first].
  - now apply H.
  - change (ch_minus =? ch_comma) with false. cbv iota. now rewrite H.
Qed.

Lemma body_not_prefixed c k r :
  forallb digit_or_dot (c :: k :: r) = true ->
  parse_NonDecimalIntegerLiteral (c :: k :: r) = None.
Proof.
  cbn [forallb]. intros H. apply andb_true_iff in H. destruct H as [_ H].
  apply andb_true_iff in H. destruct H as [Hk _].
  unfold parse_NonDecimalIntegerLiteral.
  destruct r; [reflexivity|]. destruct (c =? 48); [|reflexivity].
  assert (Hx : forall a b, a <> 46 -> ~ (48 <= a <= 57) -> b <> 46 -> ~ (48 <= b <= 57) ->
                           (k =? a) || (k =? b) = false).
  { intros a b Ha1 Ha2 Hb1 Hb2. unfold digit_or_dot, is_digit, ch_dot in Hk.
    by_class. class_lia. }
  rewrite !Hx by lia. reflexivity.
Qed.

(** [Number] on a buffer: NaN when no digit is present, a rounded
    decimal otherwise. *)
Lemma StringToNumber_buffer sign ip frac :
  (sign = [] \/ sign = [ch_minus]) ->
  forallb is_digit ip = true ->
  (frac = [] \/ exists fp, frac = ch_dot :: fp /\ forallb is_digit fp = true) ->
  sign ++ ip ++ frac <> [] ->
  (no_digits ip frac -> StringToNumber (sign ++ ip ++ frac) = NaN)
  /\ (~ no_digits ip frac -> StringToNumber (sign ++ ip ++ frac) <> NaN).
Proof.
  intros Hs Hip Hf Hne.
  pose proof (buffer_body ip frac Hip Hf) as Hb.
  destruct (parse_unsigned_body ip frac Hip Hf) as [Hnone Hsome].
  assert (Ht : trim (sign ++ ip ++ frac) = sign ++ ip ++ frac).
  { apply trim_Forall, (buffer_not_ws true).
    exists sign, ip, frac. repeat split; auto.
    destruct Hs as [-> | ->]; auto. }
  unfold StringToNumber. rewrite Ht.
  destruct Hs as [-> | ->]; cbn [app] in *.
  - destruct (ip ++ frac) as [|c r] eqn:E; [congruence|].
    assert (Hnd : parse_NonDecimalIntegerLiteral (c :: r) = None).
    { destruct r; [reflexivity|]. now apply body_not_prefixed. }
    rewrite Hnd. unfold parse_StrDecimalLiteral.
    assert (Hc : (c =? ch_plus) = false /\ (c =? ch_minus) = false).
    { cbn [forallb] in Hb. apply andb_true_iff in Hb. destruct Hb as [Hc _].
      unfold digit_or_dot, is_digit, ch_dot, ch_plus, ch_minus in *.
      split; by_class; class_lia. }
    destruct Hc as [-> ->]. split.
    + intros Hn. now rewrite (Hnone Hn).
    + intros Hn. destruct (Hsome Hn) as (m & e & ->). cbn [option_map].
      apply round_decimal_not_nan.
  - assert (Hnd : parse_NonDecimalIntegerLiteral (ch_minus :: ip ++ frac) = None).
    { unfold parse_NonDecimalIntegerLiteral.
      destruct (ip ++ frac) as [|k [|d ds]]; reflexivity. }
    rewrite Hnd. unfold parse_StrDecimalLiteral.
    change (ch_minus =? ch_plus) with false. cbv iota. rewrite N.eqb_refl. split.
    + intros Hn. now rewrite (Hnone Hn).
    + intros Hn. destruct (Hsome Hn) as (m & e & ->). cbn [option_map].
      apply round_decimal_not_nan.
Qed.

Lemma no_digits_dec ip frac :
  (frac = [] \/ exists fp, frac = ch_dot :: fp /\ forallb is_digit fp = true) ->
  no_digits ip frac \/ ~ no_digits ip frac.
Proof.
  unfold no_digits. intros Hf. destruct ip as [|c ip].
  - destruct Hf as [-> | (fp & -> & _)]; [left; auto|].
    destruct fp; [left; auto|]. right. intros [_ [H | H]]; discriminate.
  - right. intros [H _]. discriminate.
Qed.

Lemma incomplete_entry_no_digits sign ip frac :
  (sign = [] \/ sign = [ch_minus]) ->
  sign ++ ip ++ frac <> [] ->
  no_digits ip frac -> incomplete_entry (sign ++ ip ++ frac).
Proof.
  unfold incomplete_entry. intros Hs Hne [-> Hf].
  destruct Hs as [-> | ->], Hf as [-> | ->]; cbn in *; auto. congruence.
Qed.

Lemma buffer_Number_NaN b :
  is_buffer true b -> b <> [] ->
  (StringToNumber b = NaN <-> incomplete_entry b).
Proof.
  intros (sign & ip & frac & -> & Hs & Hip & Hf) Hne.
  assert (Hs' : sign = [] \/ sign = [ch_minus])
    by (destruct Hs as [-> | [_ ->]]; auto).
  destruct (StringToNumber_buffer sign ip frac Hs' Hip Hf Hne) as [Hnan Hnum].
  split.
  - intros H. destruct (no_digits_dec ip frac Hf) as [Hn | Hn].
    + now apply incomplete_entry_no_digits.
    + now apply Hnum in Hn.
  - intros [-> | [-> | ->]]; reflexivity.
Qed.

(** X8: the three buffers that [parseNumber] rejects by name are exactly
    the non-empty buffers of the keypad grammar that [Number] turns into
    NaN.  Every other non-empty buffer holds a digit and is read as the
    number [Number] gives for it, unless that number is infinite. *)
Theorem keypad_buffer_as_number b :
  is_buffer true b -> b <> [] ->
  (StringToNumber b = NaN <-> incomplete_entry b)
  /\ (incomplete_entry b -> parseNumber b = Nan)
  /\ (~ incomplete_entry b ->
      (forall s, StringToNumber b <> S754_infinity s) ->
      parseNumber b = Num (StringToNumber b)).
Proof.
  intros Hb Hne. pose proof (buffer_Number_NaN b Hb Hne) as Hiff.
  split; [exact Hiff|]. split.
  - intros [-> | [-> | ->]]; reflexivity.
  - intros Hn Hinf. unfold parseNumber.
    rewrite (trim_Forall b (buffer_not_ws true b Hb)).
    destruct b as [|c r] eqn:Eb; [congruence|]. rewrite <- Eb in *.
    assert (Hk : forall k, incomplete_entry k -> eqb b k = false).
    { intros k Hk. destruct (eqb b k) eqn:E; [|reflexivity].
      apply eqb_eq in E. subst k. contradiction. }
    rewrite !Hk by (unfold incomplete_entry; auto). cbn [orb].
    rewrite (buffer_no_comma true b Hb).
    destruct (StringToNumber b) as [s|s| |s m e] eqn:En; try reflexivity.
    + exfalso. exact (Hinf s eq_refl).
    + exfalso. apply Hn. now apply Hiff.
Qed.

Lemma keypad_buffer_as_number_witness :
  is_buffer true (lit "-.5") /\ lit "-.5" <> []
  /\ ~ incomplete_entry (lit "-.5")
  /\ parseNumber (lit "-.5") = Num (S754_finite true (2 ^ 52) (-53)).
Proof.
  assert (Hb : is_buffer true (lit "-.5")).
  { exists (lit "-"), [], (lit ".5"). repeat split; auto. right. exists (lit "5"). auto. }
  assert (Hne : lit "-.5" <> []) by discriminate.
  assert (Hn : ~ incomplete_entry (lit "-.5")).
  { intros [H | [H | H]]; discriminate H. }
  split; [exact Hb|]. split; [exact Hne|]. split; [exact Hn|].
  rewrite (proj2 (proj2 (keypad_buffer_as_number (lit "-.5") Hb Hne)) Hn).
  - vm_compute; reflexivity.
  - intros s. vm_compute; discriminate.
Defined.

End KeypadNumber.


(* ================================================================== *)
(** * Saving a reading, and the range fields of the chiller editor     *)
(* ================================================================== *)

Module SaveSpec.
Import JS JSFacts NumberFacts AddLog Range ChillerEdit AddLogSpec.

Lemma parseNumber_Num_finite val n :
  parseNumber val = Num n -> Number_isFinite n = true.
Proof.
  unfold parseNumber. destruct (trim val); [discriminate|].
  destruct (_ || _); [discriminate|].
  destruct (Number_isFinite (StringToNumber _)) eqn:E; cbn [negb]; [|discriminate].
  intros H. injection H as <-. exact E.
Qed.

(** X9: the parser of the chiller editor and the parser of the reading
    form agree on every input: [null] for blank text, [NaN] where
    [parseNumber] gives its invalid marker, and the same number
    otherwise.  The three buffers [parseNumber] names are invalid for
    both. *)
Theorem parseNumberOrNull_agrees val :
  parseNumberOrNull val
  = match parseNumber val with
    | Null => None
    | Nan => Some NaN
    | Num n => Some n
    end.
Proof.
  unfold parseNumberOrNull, parseNumber.
  destruct (trim val) as [|c r] eqn:Et; [reflexivity|]. rewrite <- Et.
  destruct (eqb (trim val) (lit "-")) eqn:E1.
  { apply eqb_eq in E1. rewrite E1. reflexivity. }
  destruct (eqb (trim val) (lit ".")) eqn:E2.
  { apply eqb_eq in E2. rewrite E2. reflexivity. }
  destruct (eqb (trim val) (lit "-.")) eqn:E3.
  { apply eqb_eq in E3. rewrite E3. reflexivity. }
  cbn [orb]. destruct (negb (Number_isFinite _)); reflexivity.
Qed.

(** X10: when the validation of [onSave] lets a reading through, the
    temperature is the finite number its text parses to, the humidity is
    absent for blank text or the finite number its text parses to, a
    status of [warning] or [damaged] comes with a note that is not
    blank, and a status of [damaged] comes with a photo. *)
Theorem onSaveValidation_proceed tempC humidity status note photoUri t h :
  onSaveValidation tempC humidity status note photoUri = Proceed t h ->
  parseNumber tempC = Num t
  /\ Number_isFinite t = true
  /\ ((parseNumber humidity = Null /\ h = None)
      \/ (exists x, parseNumber humidity = Num x /\ h = Some x
                    /\ Number_isFinite x = true))
  /\ (status <> ok -> trim note <> [])
  /\ (status = damaged -> exists p, photoUri = Some p /\ p <> []).
Proof.
  unfold onSaveValidation.
  destruct (parseNumber tempC) as [| |t'] eqn:Et; try discriminate.
  destruct (parseNumber humidity) as [| |x] eqn:Eh; try discriminate;
    destruct ((Status_eqb status warning || Status_eqb status damaged)
              && is_falsy (Some (trim note))) eqn:En; try discriminate;
    destruct (Status_eqb status damaged && is_falsy photoUri) eqn:Ep;
    try discriminate;
    intros H; injection H as <- <-;
    (split; [reflexivity|]);
    (split; [exact (parseNumber_Num_finite _ _ Et)|]);
    (split; [first [left; split; reflexivity
                   | right; exists x; repeat split;
                     exact (parseNumber_Num_finite _ _ Eh)]|]);
    (split;
     [ intros Hs Hnote; rewrite Hnote in En; destruct status;
       try discriminate; congruence
     | intros ->; cbn [Status_eqb andb] in Ep;
       destruct photoUri as [[|c p]|]; try discriminate;
       exists (c :: p); split; [reflexivity | discriminate] ]).
Qed.

Lemma onSaveValidation_proceed_witness :
  onSaveValidation (lit "9,5") (lit "") damaged (lit " door open ")
                   (Some (lit "file:///p.jpg"))
  = Proceed (S754_finite false (19 * 2 ^ 48) (-49)) None
  /\ trim (lit " door open ") <> [].
Proof.
  assert (H : onSaveValidation (lit "9,5") (lit "") damaged (lit " door open ")
                               (Some (lit "file:///p.jpg"))
              = Proceed (S754_finite false (19 * 2 ^ 48) (-49)) None)
    by (vm_compute; reflexivity).
  split; [exact H|].
  apply (proj1 (proj2 (proj2 (proj2 (onSaveValidation_proceed _ _ _ _ _ _ _ H))))).
  discriminate.
Defined.

(** X11: the note check of [onSave] follows the status, not the
    temperature.  When the temperature text parses to a number outside a
    bound and the status was not [damaged], the effect sets [warning],
    and [onSave] with a blank note right after it stops at the note
    check (the humidity text being blank or a number).  The check can be
    passed all the same: after the OK chip is pressed the status is
    [ok], and [onSave] lets the same out-of-range reading through with
    the blank note. *)
Theorem note_check_follows_status ch tempC humidity status note photoUri t :
  parseNumber tempC = Num t ->
  status <> damaged ->
  out_of_range ch t ->
  parseNumber humidity <> Nan ->
  trim note = [] ->
  autoWarningEffect (Some ch) tempC status = warning
  /\ onSaveValidation tempC humidity (autoWarningEffect (Some ch) tempC status)
                      note photoUri = NoteRequired
  /\ exists h,
      onSaveValidation tempC humidity
                       (chipPress ok (autoWarningEffect (Some ch) tempC status))
                       note photoUri = Proceed t h.
Proof.
  intros Ht Hs Ho Hh Hn.
  assert (Hw : autoWarningEffect (Some ch) tempC status = warning).
  { rewrite (effect_parsed _ _ _ _ Ht Hs). now apply classifyRange_warning. }
  split; [exact Hw|]. rewrite Hw. unfold onSaveValidation, chipPress.
  rewrite Ht, Hn. split.
  - destruct (parseNumber humidity); [reflexivity | congruence | reflexivity].
  - destruct (parseNumber humidity); cbn; [eauto | congruence | eauto].
Qed.

Lemma note_check_follows_status_witness :
  onSaveValidation (lit "8.5") (lit "40")
                   (autoWarningEffect (Some chiller_2_8) (lit "8.5") ok)
                   (lit "  ") None = NoteRequired
  /\ exists h,
      onSaveValidation (lit "8.5") (lit "40")
        (chipPress ok (autoWarningEffect (Some chiller_2_8) (lit "8.5") ok))
        (lit "  ") None
      = Proceed (S754_finite false (17 * 2 ^ 48) (-49)) h.
Proof.
  refine (proj2 (note_check_follows_status chiller_2_8 (lit "8.5") (lit "40") ok
                   (lit "  ") None (S754_finite false (17 * 2 ^ 48) (-49))
                   _ _ _ _ _)).
  - vm_compute; reflexivity.
  - discriminate.
  - right. exists (of_Z 8). split; vm_compute; reflexivity.
  - vm_compute; discriminate.
  - vm_compute; reflexivity.
Defined.

(** ** Comparison of numbers *)

Lemma compare_cont_Eq_antisym p q :
  Pos.compare_cont Eq q p = CompOpp (Pos.compare_cont Eq p q).
Proof. apply (Pos.compare_antisym p q). Qed.

Lemma SFcompare_antisym x y c :
  SFcompare x y = Some c -> SFcompare y x = Some (CompOpp c).
Proof.
  destruct x as [sx|sx| |sx mx ex], y as [sy|sy| |sy my ey];
    try discriminate; cbn [SFcompare];
    try (destruct sx); try (destruct sy);
    intros H; injection H as <-; try reflexivity;
    rewrite (Z.compare_antisym ex ey), (compare_cont_Eq_antisym mx my);
    destruct (ex ?= ey)%Z; cbn [CompOpp]; try reflexivity;
    now rewrite ?CompOpp_involutive.
Qed.

Lemma not_gt_le x y :
  x <> S754_nan -> y <> S754_nan -> gt x y = false -> SFleb x y = true.
Proof.
  unfold gt, SFltb, SFleb. intros Hx Hy H.
  destruct (SFcompare x y) as [c|] eqn:E.
  - rewrite (SFcompare_antisym _ _ _ E) in H. destruct c; try reflexivity.
    discriminate H.
  - destruct x, y; try congruence; discriminate E.
Qed.

Ltac compare_cases :=
  repeat match goal with
    | H : context [(?a ?= ?b)%Z] |- _ => destruct (Z.compare_spec a b); try subst
    | H : context [Pos.compare_cont Eq ?a ?b] |- _ =>
        change (Pos.compare_cont Eq a b) with (Pos.compare a b) in *;
        destruct (Pos.compare_spec a b); try subst
    end;
  cbn in *; try discriminate; try lia.

(** No number lies below [x] and above [y] when [x <= y]. *)
Lemma between_impossible t x y :
  lt t x = true -> SFleb x y = true -> gt t y = true -> False.
Proof.
  unfold lt, gt, SFltb, SFleb.
  destruct t as [st|st| |st mt et], x as [sx|sx| |sx mx ex],
    y as [sy|sy| |sy my ey];
    cbn [SFcompare]; try discriminate;
    try (destruct st); try (destruct sx); try (destruct sy);
    try discriminate; intros H1 H2 H3; compare_cases.
Qed.

Lemma parseNumberOrNull_cases val :
  (parseNumberOrNull val = None /\ trim val = [])
  \/ (parseNumberOrNull val = Some NaN /\ trim val <> [])
  \/ (exists n, parseNumberOrNull val = Some n /\ Number_isFinite n = true
                /\ trim val <> []).
Proof.
  unfold parseNumberOrNull. destruct (trim val) as [|c r] eqn:Et; [left; auto|].
  right. destruct (Number_isFinite (StringToNumber _)) eqn:E; cbn [negb].
  - right. eexists. repeat split; [exact E | discriminate].
  - left. split; [reflexivity | discriminate].
Qed.

Lemma finite_not_nan n : Number_isFinite n = true -> n <> S754_nan.
Proof. intros H ->. discriminate H. Qed.

Lemma finite_isNaN n : Number_isFinite n = true -> Number_isNaN (Some n) = false.
Proof. destruct n; try reflexivity; discriminate. Qed.

Lemma checkRange_RangeOk minTemp maxTemp min max :
  checkRange minTemp maxTemp = RangeOk min max ->
  min = parseNumberOrNull minTemp /\ max = parseNumberOrNull maxTemp
  /\ (forall mn, min = Some mn -> Number_isFinite mn = true)
  /\ (forall mx, max = Some mx -> Number_isFinite mx = true)
  /\ (forall mn mx, min = Some mn -> max = Some mx -> SFleb mn mx = true).
Proof.
  unfold checkRange.
  destruct (parseNumberOrNull_cases minTemp)
    as [[-> _] | [[-> _] | (mn & -> & Fmn & _)]];
    destruct (parseNumberOrNull_cases maxTemp)
      as [[-> _] | [[-> _] | (mx & -> & Fmx & _)]];
    rewrite ?(finite_isNaN _ Fmn), ?(finite_isNaN _ Fmx);
    cbn [Number_isNaN orb NaN]; try discriminate.
  - intros H. injection H as <- <-. repeat split; intros; discriminate.
  - intros H. injection H as <- <-.
    repeat split; intros; try discriminate. congruence.
  - intros H. injection H as <- <-.
    repeat split; intros; try discriminate. congruence.
  - destruct (gt mn mx) eqn:G; [discriminate|].
    intros H. injection H as <- <-. repeat split; intros; try congruence.
    match goal with
    | H1 : Some mn = Some ?a, H2 : Some mx = Some ?b |- _ =>
        injection H1 as <-; injection H2 as <-
    end.
    apply not_gt_le; auto using finite_not_nan.
Qed.

(** X12: a range the chiller editor accepts keeps the range invariant.
    Each bound is absent (blank field) or a finite number, and when both
    are present the minimum is at most the maximum.  A field that is not
    a number, or a minimum above the maximum, is refused. *)
Theorem checkRange_invariant minTemp maxTemp :
  (forall min max,
      checkRange minTemp maxTemp = RangeOk min max ->
      (min = None <-> trim minTemp = [])
      /\ (max = None <-> trim maxTemp = [])
      /\ (forall mn, min = Some mn -> Number_isFinite mn = true)
      /\ (forall mx, max = Some mx -> Number_isFinite mx = true)
      /\ (forall mn mx, min = Some mn -> max = Some mx -> SFleb mn mx = true))
  /\ (checkRange minTemp maxTemp = NotANumber <->
      parseNumber minTemp = Nan \/ parseNumber maxTemp = Nan).
Proof.
  split.
  - intros min max H.
    destruct (checkRange_RangeOk _ _ _ _ H) as (Emin & Emax & F1 & F2 & Hle).
    split; [|split; [|auto]].
    + rewrite Emin.
      destruct (parseNumberOrNull_cases minTemp)
        as [[-> E] | [[-> E] | (n & -> & _ & E)]]; split; congruence.
    + rewrite Emax.
      destruct (parseNumberOrNull_cases maxTemp)
        as [[-> E] | [[-> E] | (n & -> & _ & E)]]; split; congruence.
  - unfold checkRange.
    assert (Hnan : forall v, Number_isNaN (parseNumberOrNull v) = true
                             <-> parseNumber v = Nan).
    { intros v. pose proof (parseNumber_Num_finite v) as Hf.
      unfold parseNumberOrNull, parseNumber in *.
      destruct (trim v) as [|c r] eqn:Et; [split; discriminate|]. rewrite <- Et in *.
      destruct (eqb (trim v) (lit "-")) eqn:E1.
      { apply eqb_eq in E1. rewrite E1. split; reflexivity. }
      destruct (eqb (trim v) (lit ".")) eqn:E2.
      { apply eqb_eq in E2. rewrite E2. split; reflexivity. }
      destruct (eqb (trim v) (lit "-.")) eqn:E3.
      { apply eqb_eq in E3. rewrite E3. split; reflexivity. }
      cbn [orb] in *.
      destruct (Number_isFinite (StringToNumber _)) eqn:Ef; cbn [negb] in *.
      - split; [|discriminate]. intros Hn.
        destruct (StringToNumber _); discriminate.
      - split; reflexivity. }
    destruct (Number_isNaN (parseNumberOrNull minTemp)) eqn:A;
      destruct (Number_isNaN (parseNumberOrNull maxTemp)) eqn:B; cbn [orb].
    + split; [left; now apply Hnan | reflexivity].
    + split; [left; now apply Hnan | reflexivity].
    + split; [right; now apply Hnan | reflexivity].
    + split.
      * destruct (parseNumberOrNull minTemp) as [mn|], (parseNumberOrNull maxTemp) as [mx|];
          try discriminate. destruct (gt mn mx); discriminate.
      * intros [H | H]; apply Hnan in H; congruence.
Qed.

Lemma checkRange_invariant_witness :
  checkRange (lit " 2 ") (lit "8,5")
  = RangeOk (Some (of_Z 2)) (Some (S754_finite false (17 * 2 ^ 48) (-49)))
  /\ SFleb (of_Z 2) (S754_finite false (17 * 2 ^ 48) (-49)) = true.
Proof.
  assert (H : checkRange (lit " 2 ") (lit "8,5")
              = RangeOk (Some (of_Z 2)) (Some (S754_finite false (17 * 2 ^ 48) (-49))))
    by (vm_compute; reflexivity).
  split; [exact H|].
  exact (proj2 (proj2 (proj2 (proj2
           (proj1 (checkRange_invariant (lit " 2 ") (lit "8,5")) _ _ H))))
           _ _ eq_refl eq_refl).
Defined.

(** X13: for a chiller saved with a range the editor accepts, the two
    out-of-range conditions of the auto-warning effect exclude each
    other: no temperature is below the minimum and above the maximum. *)
Theorem accepted_range_low_high_exclusive minTemp maxTemp min max t mn mx :
  checkRange minTemp maxTemp = RangeOk min max ->
  AddLog.minTemp (savedChiller min max) = Some mn ->
  AddLog.maxTemp (savedChiller min max) = Some mx ->
  lt t mn && gt t mx = false.
Proof.
  intros H Hmn Hmx. cbn in Hmn, Hmx.
  destruct (checkRange_RangeOk _ _ _ _ H) as (_ & _ & _ & _ & Hle).
  specialize (Hle mn mx Hmn Hmx).
  destruct (lt t mn) eqn:L, (gt t mx) eqn:G; try reflexivity.
  exfalso. exact (between_impossible t mn mx L Hle G).
Qed.

Lemma accepted_range_low_high_exclusive_witness :
  lt (of_Z 9) (of_Z 2) && gt (of_Z 9) (of_Z 8) = false.
Proof.
  apply (accepted_range_low_high_exclusive (lit "2") (lit "8")
           (Some (of_Z 2)) (Some (of_Z 8)) (of_Z 9) (of_Z 2) (of_Z 8));
    vm_compute; reflexivity.
Defined.

End SaveSpec.


(* ================================================================== *)
(** * More on the QR codec and its callers                             *)
(* ================================================================== *)

Module QrCallers.
Import JS JSFacts UriFacts Qr Scan.

(** ** [trim] is idempotent *)

Lemma trimStart_suffix s : exists w, s = w ++ trimStart s.
Proof.
  induction s as [|c r (w & IH)]; [now exists []|].
  cbn [trimStart]. destruct (is_white_space c).
  - exists (c :: w). cbn [app]. now rewrite <- IH.
  - now exists [].
Qed.

Lemma trimStart_length s : (length (trimStart s) <= length s)%nat.
Proof.
  destruct (trimStart_suffix s) as (w & E). rewrite E at 2.
  rewrite length_app. lia.
Qed.

Lemma trimStart_same_length s :
  length (trimStart s) = length s -> trimStart s = s.
Proof.
  intros H. destruct (trimStart_suffix s) as (w & E).
  rewrite E in H at 2. rewrite length_app in H.
  destruct w; [now symmetry | cbn in H; lia].
Qed.

Lemma trimStart_head_not_ws s c r : trimStart s = c :: r -> not_ws c.
Proof.
  induction s as [|x s IH]; [discriminate|]. cbn [trimStart].
  destruct (is_white_space x) eqn:E; [exact IH|].
  intros H. injection H as <- _. exact E.
Qed.

Lemma trimStart_idem s : trimStart (trimStart s) = trimStart s.
Proof.
  apply trimStart_head. destruct (trimStart s) as [|c r] eqn:E; [exact I|].
  exact (trimStart_head_not_ws s c r E).
Qed.

Lemma trimEnd_length s : (length (trimEnd s) <= length s)%nat.
Proof.
  unfold trimEnd. rewrite length_rev.
  pose proof (trimStart_length (rev s)) as H. now rewrite length_rev in H.
Qed.

Lemma trimEnd_prefix s : exists w, s = trimEnd s ++ w.
Proof.
  unfold trimEnd. destruct (trimStart_suffix (rev s)) as (w & E).
  exists (rev w). rewrite <- rev_app_distr, <- E. now rewrite rev_involutive.
Qed.

Lemma trimEnd_idem s : trimEnd (trimEnd s) = trimEnd s.
Proof. unfold trimEnd. now rewrite rev_involutive, trimStart_idem. Qed.

Lemma trim_trimStart s : trimStart (trim s) = trim s.
Proof.
  unfold trim. apply trimStart_head.
  destruct (trimEnd (trimStart s)) as [|c r] eqn:E; [exact I|].
  destruct (trimEnd_prefix (trimStart s)) as (w & Hw). rewrite E in Hw.
  exact (trimStart_head_not_ws s c (r ++ w) Hw).
Qed.

Lemma trim_idem s : trim (trim s) = trim s.
Proof.
  unfold trim at 1. rewrite trim_trimStart. unfold trim. apply trimEnd_idem.
Qed.

Lemma trim_fixed s : trim s = s -> trimStart s = s /\ trimEnd s = s.
Proof.
  intros H.
  assert (Hs : trimStart s = s).
  { apply trimStart_same_length.
    pose proof (trimStart_length s). pose proof (trimEnd_length (trimStart s)).
    unfold trim in H. rewrite H in *. lia. }
  split; [exact Hs|]. unfold trim in H. now rewrite Hs in H.
Qed.

Lemma trimStart_fixed_head c r : trimStart (c :: r) = c :: r -> not_ws c.
Proof. apply trimStart_head_not_ws. Qed.

Lemma trim_app_fixed p x :
  trimStart p = p -> p <> [] -> trim x = x -> x <> [] -> trim (p ++ x) = p ++ x.
Proof.
  intros Hp Hpn Hx Hxn. destruct (trim_fixed x Hx) as [_ He].
  unfold trim. destruct p as [|c p']; [congruence|].
  rewrite (trimStart_head ((c :: p') ++ x))
    by (cbn [app]; exact (trimStart_fixed_head c p' Hp)).
  unfold trimEnd in *. rewrite rev_app_distr.
  assert (Hr : trimStart (rev x) = rev x).
  { rewrite <- He at 2. now rewrite rev_involutive. }
  destruct (rev x) as [|d r] eqn:Er.
  { exfalso. apply Hxn. rewrite <- (rev_involutive x), Er. reflexivity. }
  rewrite (trimStart_head ((d :: r) ++ rev (c :: p')))
    by (cbn [app]; exact (trimStart_fixed_head d r Hr)).
  rewrite <- Er, <- rev_app_distr. apply rev_involutive.
Qed.

(** ** [decodeURIComponent] without a percent sign *)

Lemma Decode_no_percent s : ~ In ch_percent s -> Decode [] 0 s = Normal s.
Proof.
  induction s as [|c r IH]; intros H; [reflexivity|].
  cbn [Decode]. destruct (c =? ch_percent) eqn:E.
  - apply N.eqb_eq in E. exfalso. apply H. now left.
  - rewrite IH; [reflexivity|]. intros Hin. apply H. now right.
Qed.

Lemma Encode_unreserved s :
  forallb uriUnescaped s = true -> Encode uriUnescaped s = Normal s.
Proof.
  induction s as [|c r IH]; [reflexivity|]. cbn [forallb Encode].
  intros H. apply andb_true_iff in H. destruct H as [-> Hr].
  now rewrite (IH Hr).
Qed.

Lemma trim_incl c s : In c (trim s) -> In c s.
Proof.
  unfold trim. intros H.
  destruct (trimEnd_prefix (trimStart s)) as (w & E).
  destruct (trimStart_suffix s) as (w' & E').
  rewrite E', E. apply in_or_app. right. apply in_or_app. now left.
Qed.

Lemma parse_some_clean value id :
  parseChillerIdFromQr value = Normal (Some id) -> id <> [] /\ trim id = id.
Proof.
  unfold parseChillerIdFromQr.
  destruct (startsWith (trim value) QR_PREFIX).
  - destruct (decodeURIComponent _) as [d|e]; [|discriminate]. cbn [bind].
    destruct (trim d) as [|c r] eqn:E; [discriminate|]. cbn [or_null].
    intros H. injection H as <-. split; [discriminate|].
    rewrite <- E. apply trim_idem.
  - destruct (raw_id_test (trim value)) eqn:R; [|discriminate].
    intros H. injection H as <-. split; [|apply trim_idem].
    unfold raw_id_test in R. apply andb_true_iff in R. destruct R as [_ R].
    apply Nat.leb_le in R. intros E. rewrite E in R. cbn in R. lia.
Qed.

(** X14: an identifier returned by [parseChillerIdFromQr] is never
    empty and carries no leading or trailing white space. *)
Theorem parseChillerIdFromQr_result_clean value id :
  parseChillerIdFromQr value = Normal (Some id) ->
  id <> [] /\ trim id = id.
Proof. apply parse_some_clean. Qed.

Lemma parseChillerIdFromQr_result_clean_witness :
  parseChillerIdFromQr (lit " temp-monitor://chiller/%20a%20b%20 ")
  = Normal (Some (lit "a b"))
  /\ trim (lit "a b") = lit "a b".
Proof.
  assert (H : parseChillerIdFromQr (lit " temp-monitor://chiller/%20a%20b%20 ")
              = Normal (Some (lit "a b"))) by (vm_compute; reflexivity).
  split; [exact H|].
  exact (proj2 (parseChillerIdFromQr_result_clean _ _ H)).
Defined.

(** X15: white space around the payload does not matter to the decoder,
    so the trimming [onScan] does before the call changes nothing:
    [onScan] shows the "Chiller found" dialog exactly for the identifier
    the decoder returns for the scanned data, the "Invalid QR" alert when
    the decoder returns none, and passes on the decoder's exception. *)
Theorem onScan_follows_decoder :
  (forall value, parseChillerIdFromQr (trim value) = parseChillerIdFromQr value)
  /\ (forall data,
         onScan false (Some data)
         = bind (parseChillerIdFromQr data)
                (fun r => Normal (match r with
                                  | Some id => ChillerFound id
                                  | None => InvalidQr
                                  end)))
  /\ onScan false None = Normal InvalidQr
  /\ (forall data, onScan true data = Normal Ignored).
Proof.
  assert (H : forall value,
             parseChillerIdFromQr (trim value) = parseChillerIdFromQr value).
  { intros value. unfold parseChillerIdFromQr. now rewrite trim_idem. }
  split; [exact H|]. split; [|split; reflexivity].
  intros data. unfold onScan. rewrite H.
  destruct (parseChillerIdFromQr data) as [[id|]|e] eqn:E; try reflexivity.
  destruct (parse_some_clean _ _ E) as [Hne _].
  destruct id; [congruence | reflexivity].
Qed.

(** X16: [parseChillerIdFromQr] raises an exception exactly when the
    trimmed payload carries the scheme prefix and [decodeURIComponent]
    rejects what follows it.  A payload without a percent sign, or
    without the prefix, never raises. *)
Theorem parseChillerIdFromQr_raises_iff value :
  (forall e,
      parseChillerIdFromQr value = Throw e
      <-> exists rest, trim value = QR_PREFIX ++ rest
                       /\ decodeURIComponent rest = Throw e)
  /\ (~ In ch_percent value -> exists r, parseChillerIdFromQr value = Normal r)
  /\ (startsWith (trim value) QR_PREFIX = false ->
      exists r, parseChillerIdFromQr value = Normal r).
Proof.
  split; [|split].
  - intros e. unfold parseChillerIdFromQr. split.
    + destruct (startsWith (trim value) QR_PREFIX) eqn:E.
      * apply startsWith_iff in E. destruct E as [rest E]. rewrite E.
        rewrite slice_from_app. intros H. exists rest. split; [reflexivity|].
        destruct (decodeURIComponent rest) as [d|e']; [discriminate|].
        cbn [bind] in H. congruence.
      * destruct (raw_id_test (trim value)); discriminate.
    + intros (rest & E & Hd). rewrite E, startsWith_app, slice_from_app, Hd.
      reflexivity.
  - intros Hp. unfold parseChillerIdFromQr.
    destruct (startsWith (trim value) QR_PREFIX) eqn:E.
    + apply startsWith_iff in E. destruct E as [rest E]. rewrite E, slice_from_app.
      unfold decodeURIComponent. rewrite Decode_no_percent; [cbn [bind]; eauto|].
      intros Hin. apply Hp, trim_incl. rewrite E. apply in_or_app. now right.
    + destruct (raw_id_test (trim value)); eauto.
  - intros E. unfold parseChillerIdFromQr. rewrite E.
    destruct (raw_id_test (trim value)); eauto.
Qed.

Lemma parseChillerIdFromQr_raises_iff_witness :
  ~ In ch_percent (lit "temp-monitor://chiller/a b")
  /\ exists r, parseChillerIdFromQr (lit "temp-monitor://chiller/a b") = Normal r.
Proof.
  assert (H : ~ In ch_percent (lit "temp-monitor://chiller/a b")).
  { intros Hin. vm_compute in Hin. intuition discriminate. }
  split; [exact H|].
  exact (proj1 (proj2 (parseChillerIdFromQr_raises_iff _)) H).
Defined.

(** X17: the QR value the export screen builds without percent-encoding
    is decoded back to the identifier whenever the identifier is not
    empty, has no leading or trailing white space and holds no percent
    sign, whatever other code units it holds.  With a percent sign the
    round trip can fail: [50%] raises, and [a%41] comes back as [aA]. *)
Theorem plain_qr_value_roundtrip :
  (forall x,
      x <> [] -> trim x = x -> ~ In ch_percent x ->
      parseChillerIdFromQr (QrExport.buildChillerQrValue x) = Normal (Some x))
  /\ parseChillerIdFromQr (QrExport.buildChillerQrValue (lit "50%")) = Throw URIError
  /\ parseChillerIdFromQr (QrExport.buildChillerQrValue (lit "a%41"))
     = Normal (Some (lit "aA")).
Proof.
  split; [|split; vm_compute; reflexivity].
  intros x Hne Ht Hp.
  change (QrExport.buildChillerQrValue x) with (QR_PREFIX ++ x).
  unfold parseChillerIdFromQr.
  rewrite (trim_app_fixed QR_PREFIX x); [|reflexivity|discriminate|exact Ht|exact Hne].
  rewrite startsWith_app, slice_from_app.
  unfold decodeURIComponent. rewrite (Decode_no_percent x Hp). cbn [bind].
  rewrite Ht. destruct x; [congruence | reflexivity].
Qed.

Lemma plain_qr_value_roundtrip_witness :
  parseChillerIdFromQr (QrExport.buildChillerQrValue (8364 :: lit " a/b?c"))
  = Normal (Some (8364 :: lit " a/b?c")).
Proof.
  apply (proj1 plain_qr_value_roundtrip).
  - discriminate.
  - vm_compute; reflexivity.
  - intros Hin. vm_compute in Hin. intuition discriminate.
Defined.

(** ** The two builders *)

Lemma escape_code_point_length cp : (3 <= length (escape_code_point cp))%nat.
Proof.
  unfold escape_code_point, utf8_octets.
  destruct (cp <? 128); [cbn; lia|].
  destruct (cp <? 2048); [cbn; lia|].
  destruct (cp <? 65536); cbn; lia.
Qed.

Lemma Encode_length n :
  forall x e,
    (length x <= n)%nat ->
    Encode uriUnescaped x = Normal e ->
    (length x <= length e)%nat
    /\ ((length e <= length x)%nat -> forallb uriUnescaped x = true).
Proof.
  induction n as [|n IH]; intros x e Hn He.
  - destruct x; [|cbn in Hn; lia]. cbn in He. injection He as <-. auto.
  - destruct x as [|c r]; [cbn in He; injection He as <-; auto|].
    cbn [length] in Hn. cbn [Encode] in He. cbn [forallb length].
    destruct (uriUnescaped c) eqn:U.
    + destruct (Encode uriUnescaped r) as [e'|] eqn:Er; [|discriminate].
      cbn in He. injection He as <-.
      destruct (IH r e' ltac:(lia) Er) as [H1 H2]. cbn [length andb].
      split; [lia|]. intros H. apply H2. lia.
    + destruct (is_trail_surrogate c); [discriminate|].
      destruct (is_lead_surrogate c).
      * destruct r as [|d r']; [discriminate|].
        destruct (is_trail_surrogate d); [|discriminate].
        destruct (Encode uriUnescaped r') as [e'|] eqn:Er; [|discriminate].
        cbn in He. injection He as <-. cbn [length] in Hn.
        destruct (IH r' e' ltac:(lia) Er) as [H1 _].
        pose proof (escape_code_point_length (surrogate_pair_to_code_point c d)).
        rewrite length_app. cbn [length]. split; lia.
      * destruct (Encode uriUnescaped r) as [e'|] eqn:Er; [|discriminate].
        cbn in He. injection He as <-.
        destruct (IH r e' ltac:(lia) Er) as [H1 _].
        pose proof (escape_code_point_length c).
        rewrite length_app. split; lia.
Qed.

(** X18: the builder of [src/utils/qr.ts] and the builder of the export
    screen give the same QR value exactly for the identifiers that hold
    only unreserved characters (letters, digits and [-_.!~*'()]). *)
Theorem builders_agree_iff x :
  Qr.buildChillerQrValue x = Normal (QrExport.buildChillerQrValue x)
  <-> forallb uriUnescaped x = true.
Proof.
  change (QrExport.buildChillerQrValue x) with (QR_PREFIX ++ x).
  unfold Qr.buildChillerQrValue, encodeURIComponent. split.
  - destruct (Encode uriUnescaped x) as [e|] eqn:E; [|discriminate].
    cbn [cmap bind]. intros H.
    assert (He : QR_PREFIX ++ e = QR_PREFIX ++ x) by congruence.
    apply app_inv_head in He. subst e.
    exact (proj2 (Encode_length (length x) x x (le_n _) E) (le_n _)).
  - intros H. now rewrite (Encode_unreserved x H).
Qed.

End QrCallers.


(* ================================================================== *)
(** * File names of the export screen                                  *)
(* ================================================================== *)

Module FileNameSpec.
Import JS JSFacts Qr QrExport ExportNotions.

Lemma replace_runs_forallb (P cls : code_unit -> bool) by_ s :
  forallb P by_ = true ->
  (forall c, In c s -> cls c = false -> P c = true) ->
  forallb P (replace_runs cls by_ s) = true.
Proof.
  intros Hby. induction s as [|c r IH]; intros H; [reflexivity|].
  assert (Hr : forallb P (replace_runs cls by_ r) = true).
  { apply IH. intros x Hx. apply H. now right. }
  cbn [replace_runs]. destruct (cls c) eqn:E.
  - destruct r as [|d r']; [exact Hby|].
    destruct (cls d); [exact Hr|]. rewrite forallb_app, Hby. exact Hr.
  - cbn [forallb]. rewrite (H c (or_introl eq_refl) E). exact Hr.
Qed.

Lemma replace_runs_none cls by_ s :
  forallb (fun c => negb (cls c)) s = true -> replace_runs cls by_ s = s.
Proof.
  induction s as [|c r IH]; [reflexivity|]. cbn [forallb replace_runs].
  intros H. apply andb_true_iff in H. destruct H as [Hc Hr].
  apply negb_true_iff in Hc. rewrite Hc. now rewrite IH.
Qed.

Lemma forallb_firstn {A} (f : A -> bool) n l :
  forallb f l = true -> forallb f (firstn n l) = true.
Proof.
  revert l; induction n as [|n IH]; intros [|a l]; try reflexivity.
  cbn [forallb firstn]. intros H. apply andb_true_iff in H. destruct H as [-> H].
  now rewrite IH.
Qed.

Lemma no_double_step c a b l :
  no_double c (a :: b :: l)
  = negb ((a =? c) && (b =? c)) && no_double c (b :: l).
Proof. reflexivity. Qed.

Lemma no_double_cons c a l :
  no_double c (a :: l) = true -> no_double c l = true.
Proof.
  destruct l as [|b l]; [reflexivity|]. cbn [no_double].
  intros H. apply andb_true_iff in H. now destruct H.
Qed.

Lemma no_double_firstn c n l :
  no_double c l = true -> no_double c (firstn n l) = true.
Proof.
  revert l; induction n as [|n IH]; intros [|a l] H; try reflexivity.
  cbn [firstn]. pose proof (IH l (no_double_cons c a l H)) as Hl.
  destruct n as [|n]; [destruct l; reflexivity|].
  destruct l as [|b l]; [reflexivity|].
  cbn [firstn] in *. cbn [no_double] in *.
  apply andb_true_iff in H. destruct H as [-> _]. exact Hl.
Qed.

(** The second replacement leaves single underscores only. *)
Lemma collapse_underscores_no_double s :
  no_double ch_under (replace_runs (fun c => c =? ch_under) [ch_under] s) = true.
Proof.
  induction s as [|c r IH]; [reflexivity|].
  cbn [replace_runs]. destruct (c =? ch_under) eqn:E.
  - destruct r as [|d r']; [reflexivity|].
    destruct (d =? ch_under) eqn:D; [exact IH|].
    cbn [replace_runs] in *. rewrite D in *. cbn [app].
    rewrite no_double_step, D, andb_false_r. exact IH.
  - destruct (replace_runs _ _ r) as [|b l] eqn:R; [reflexivity|].
    rewrite no_double_step, E. exact IH.
Qed.

Lemma collapse_underscores_fixed s :
  no_double ch_under s = true ->
  replace_runs (fun c => c =? ch_under) [ch_under] s = s.
Proof.
  induction s as [|c r IH]; [reflexivity|]. intros H.
  pose proof (IH (no_double_cons _ _ _ H)) as Hr.
  cbn [replace_runs]. destruct (c =? ch_under) eqn:E.
  - apply N.eqb_eq in E. subst c. destruct r as [|d r']; [reflexivity|].
    cbn [no_double] in H. rewrite N.eqb_refl in H. cbn [andb] in H.
    apply andb_true_iff in H. destruct H as [H _]. apply negb_true_iff in H.
    rewrite H. now rewrite Hr.
  - now rewrite Hr.
Qed.

Lemma token_not_ws c : is_token_char c = true -> not_ws c.
Proof.
  unfold is_token_char, is_alnum, is_digit, is_upper, is_lower, ch_under, ch_minus, not_ws.
  intros H. by_class. unfold is_white_space in *. class_lia.
Qed.

(** X19: whatever the chiller name, the file name has at most 48 code
    units, holds only ASCII letters, digits, underscores and hyphens,
    and never two underscores in a row. *)
Theorem safeNameForFile_safe name :
  (length (safeNameForFile name) <= 48)%nat
  /\ forallb is_token_char (safeNameForFile name) = true
  /\ no_double ch_under (safeNameForFile name) = true.
Proof.
  unfold safeNameForFile, slice_to. split; [apply firstn_le_length|]. split.
  - apply forallb_firstn. apply replace_runs_forallb; [reflexivity|].
    intros c Hc _. revert c Hc. apply forallb_forall.
    apply replace_runs_forallb; [reflexivity|].
    intros c _ Hc. unfold unsafe_for_file in Hc. now apply negb_false_iff in Hc.
  - apply no_double_firstn, collapse_underscores_no_double.
Qed.

(** X20: a name that is already a file-safe token (not empty, at most 48
    letters, digits, hyphens and single underscores) is kept as it is.
    The empty name gives [chiller]; a name of white space only gives the
    empty file name. *)
Theorem safeNameForFile_fixed :
  (forall name,
      name <> [] -> (length name <= 48)%nat ->
      forallb is_token_char name = true ->
      no_double ch_under name = true ->
      safeNameForFile name = name)
  /\ safeNameForFile [] = lit "chiller"
  /\ (forall name,
         name <> [] -> Forall (fun c => is_white_space c = true) name ->
         safeNameForFile name = []).
Proof.
  split; [|split; [reflexivity|]].
  - intros name Hne Hlen Htok Hnd. unfold safeNameForFile, slice_to.
    replace (match name with [] => lit "chiller" | _ :: _ => name end) with name
      by (destruct name; [congruence | reflexivity]).
    rewrite trim_Forall.
    + rewrite (replace_runs_none unsafe_for_file).
      * rewrite (collapse_underscores_fixed name Hnd). now apply firstn_all2.
      * unfold unsafe_for_file. rewrite forallb_forall in *.
        intros x Hx. now rewrite (Htok x Hx).
    + apply Forall_forall. intros x Hx. apply token_not_ws.
      rewrite forallb_forall in Htok. now apply Htok.
  - intros name Hne Hws. unfold safeNameForFile.
    replace (match name with [] => lit "chiller" | _ :: _ => name end) with name
      by (destruct name; [congruence | reflexivity]).
    apply trim_nil_iff in Hws. rewrite Hws. reflexivity.
Qed.

Lemma safeNameForFile_fixed_witness :
  safeNameForFile (lit "Cold_Room-7") = lit "Cold_Room-7"
  /\ safeNameForFile (lit "   ") = [].
Proof.
  destruct safeNameForFile_fixed as (H1 & _ & H3). split.
  - apply H1; [discriminate | cbn; lia | reflexivity | reflexivity].
  - apply H3; [discriminate | repeat constructor].
Defined.

End FileNameSpec.


(* ================================================================== *)
(** * Percent-encoding of well-formed UTF-16 text                      *)
(* ================================================================== *)

Module UriGeneral.
Import JS JSFacts UriFacts UriNotions.

Lemma all_below_spec n f :
  all_below n f = true -> forall q, q < N.of_nat n -> f q = true.
Proof.
  unfold all_below. intros H q Hq. rewrite forallb_forall in H. apply H.
  apply in_map_iff. exists (N.to_nat q). split; [apply N2Nat.id|].
  apply in_seq. lia.
Qed.

(** ** Octets as sums *)

Lemma cont_octet r :
  r < 64 ->
  N.lor 0x80 r = 0x80 + r /\ N.land (0x80 + r) 0x3F = r.
Proof.
  intros H.
  pose proof (all_below_spec 64
    (fun r => (N.lor 0x80 r =? 0x80 + r) && (N.land (0x80 + r) 0x3F =? r))
    eq_refl r H) as K.
  cbv beta in K. apply andb_true_iff in K. destruct K as [K1 K2].
  apply N.eqb_eq in K1, K2. auto.
Qed.

Lemma lead2_octet q :
  q < 32 -> N.lor 0xC0 q = 0xC0 + q /\ N.land (0xC0 + q) 0x1F = q.
Proof.
  intros H.
  pose proof (all_below_spec 32
    (fun q => (N.lor 0xC0 q =? 0xC0 + q) && (N.land (0xC0 + q) 0x1F =? q))
    eq_refl q H) as K.
  cbv beta in K. apply andb_true_iff in K. destruct K as [K1 K2].
  apply N.eqb_eq in K1, K2. auto.
Qed.

Lemma lead3_octet q :
  q < 16 -> N.lor 0xE0 q = 0xE0 + q /\ N.land (0xE0 + q) 0x0F = q.
Proof.
  intros H.
  pose proof (all_below_spec 16
    (fun q => (N.lor 0xE0 q =? 0xE0 + q) && (N.land (0xE0 + q) 0x0F =? q))
    eq_refl q H) as K.
  cbv beta in K. apply andb_true_iff in K. destruct K as [K1 K2].
  apply N.eqb_eq in K1, K2. auto.
Qed.

Lemma lead4_octet q :
  q < 8 -> N.lor 0xF0 q = 0xF0 + q /\ N.land (0xF0 + q) 0x07 = q.
Proof.
  intros H.
  pose proof (all_below_spec 8
    (fun q => (N.lor 0xF0 q =? 0xF0 + q) && (N.land (0xF0 + q) 0x07 =? q))
    eq_refl q H) as K.
  cbv beta in K. apply andb_true_iff in K. destruct K as [K1 K2].
  apply N.eqb_eq in K1, K2. auto.
Qed.

Lemma shiftr6 cp : N.shiftr cp 6 = cp / 64.
Proof. apply (N.shiftr_div_pow2 cp 6). Qed.

Lemma shiftr12 cp : N.shiftr cp 12 = cp / 64 / 64.
Proof. rewrite (N.shiftr_div_pow2 cp 12), N.Div0.div_div. reflexivity. Qed.

Lemma shiftr18 cp : N.shiftr cp 18 = cp / 64 / 64 / 64.
Proof. rewrite (N.shiftr_div_pow2 cp 18), !N.Div0.div_div. reflexivity. Qed.

Lemma land63 a : N.land a 0x3F = a mod 64.
Proof. apply (N.land_ones a 6). Qed.

Lemma is_continuation_sum r : r < 64 -> is_continuation (0x80 + r) = true.
Proof.
  intros H. unfold is_continuation. apply andb_true_iff. split.
  - apply N.leb_le. lia.
  - apply N.ltb_lt. lia.
Qed.

(** Linear arithmetic with division and remainder by constants. *)
Ltac dlia := zify; Z.to_euclidean_division_equations; lia.

(** ** The octets of a code point and the code point of the octets *)

Lemma octets2 cp :
  0x80 <= cp < 0x800 ->
  utf8_octets cp = [0xC0 + cp / 64; 0x80 + cp mod 64]
  /\ utf8_code_point [0xC0 + cp / 64; 0x80 + cp mod 64] = Some cp.
Proof.
  intros H.
  assert (Hq : cp / 64 < 32) by dlia.
  destruct (lead2_octet _ Hq) as [L1 L2].
  destruct (cont_octet (cp mod 64) ltac:(dlia)) as [C1 C2].
  split.
  - unfold utf8_octets.
    replace (cp <? 128) with false by (symmetry; apply N.ltb_ge; dlia).
    replace (cp <? 2048) with true by (symmetry; apply N.ltb_lt; dlia).
    now rewrite shiftr6, land63, L1, C1.
  - unfold utf8_code_point. rewrite L2, C2.
    rewrite is_continuation_sum by dlia.
    replace (cp / 64 * 64 + cp mod 64) with cp by dlia.
    replace (128 <=? cp) with true by (symmetry; apply N.leb_le; dlia).
    reflexivity.
Qed.

Lemma octets3 cp :
  0x800 <= cp < 0x10000 ->
  negb ((0xD800 <=? cp) && (cp <=? 0xDFFF)) = true ->
  utf8_octets cp
  = [0xE0 + cp / 64 / 64; 0x80 + (cp / 64) mod 64; 0x80 + cp mod 64]
  /\ utf8_code_point
       [0xE0 + cp / 64 / 64; 0x80 + (cp / 64) mod 64; 0x80 + cp mod 64]
     = Some cp.
Proof.
  intros H Hs.
  assert (Hq : cp / 64 / 64 < 16) by dlia.
  destruct (lead3_octet _ Hq) as [L1 L2].
  destruct (cont_octet (cp mod 64) ltac:(dlia)) as [C1 C2].
  destruct (cont_octet ((cp / 64) mod 64) ltac:(dlia)) as [D1 D2].
  split.
  - unfold utf8_octets.
    replace (cp <? 128) with false by (symmetry; apply N.ltb_ge; dlia).
    replace (cp <? 2048) with false by (symmetry; apply N.ltb_ge; dlia).
    replace (cp <? 65536) with true by (symmetry; apply N.ltb_lt; dlia).
    now rewrite shiftr6, shiftr12, !land63, L1, C1, D1.
  - unfold utf8_code_point. rewrite L2, C2, D2.
    rewrite !is_continuation_sum by dlia.
    replace (cp / 64 / 64 * 4096 + (cp / 64) mod 64 * 64 + cp mod 64) with cp by dlia.
    replace (2048 <=? cp) with true by (symmetry; apply N.leb_le; dlia).
    rewrite Hs. reflexivity.
Qed.

Lemma octets4 cp :
  0x10000 <= cp < 0x110000 ->
  utf8_octets cp
  = [0xF0 + cp / 64 / 64 / 64; 0x80 + (cp / 64 / 64) mod 64;
     0x80 + (cp / 64) mod 64; 0x80 + cp mod 64]
  /\ utf8_code_point
       [0xF0 + cp / 64 / 64 / 64; 0x80 + (cp / 64 / 64) mod 64;
        0x80 + (cp / 64) mod 64; 0x80 + cp mod 64]
     = Some cp.
Proof.
  intros H.
  assert (Hq : cp / 64 / 64 / 64 < 8) by dlia.
  destruct (lead4_octet _ Hq) as [L1 L2].
  destruct (cont_octet (cp mod 64) ltac:(dlia)) as [C1 C2].
  destruct (cont_octet ((cp / 64) mod 64) ltac:(dlia)) as [D1 D2].
  destruct (cont_octet ((cp / 64 / 64) mod 64) ltac:(dlia)) as [E1 E2].
  split.
  - unfold utf8_octets.
    replace (cp <? 128) with false by (symmetry; apply N.ltb_ge; dlia).
    replace (cp <? 2048) with false by (symmetry; apply N.ltb_ge; dlia).
    replace (cp <? 65536) with false by (symmetry; apply N.ltb_ge; dlia).
    now rewrite shiftr6, shiftr12, shiftr18, !land63, L1, C1, D1, E1.
  - unfold utf8_code_point. rewrite L2, C2, D2, E2.
    rewrite !is_continuation_sum by dlia.
    replace (cp / 64 / 64 / 64 * 262144 + (cp / 64 / 64) mod 64 * 4096
             + (cp / 64) mod 64 * 64 + cp mod 64) with cp by dlia.
    replace (65536 <=? cp) with true by (symmetry; apply N.leb_le; dlia).
    replace (cp <=? 1114111) with true by (symmetry; apply N.leb_le; dlia).
    reflexivity.
Qed.

(** ** One step of [Decode] on an escaped octet *)

Lemma octet_nibbles b : b < 256 -> 16 * (b / 16) + b mod 16 = b.
Proof. intros H. symmetry. apply N.div_mod. dlia. Qed.

Lemma Decode_first b rest :
  b < 256 ->
  Decode [] 0 (percent_octet b ++ rest)
  = match leading_ones b with
    | 0%nat => cmap (cons b) (Decode [] 0 rest)
    | 2%nat => Decode [b] 1 rest
    | 3%nat => Decode [b] 2 rest
    | 4%nat => Decode [b] 3 rest
    | _ => Throw URIError
    end.
Proof.
  intros H. unfold percent_octet. cbn [app Decode]. rewrite N.eqb_refl.
  rewrite !hex_value_upper
    by (try (apply N.Div0.div_lt_upper_bound; dlia); apply N.mod_lt; dlia).
  now rewrite (octet_nibbles b H).
Qed.

Lemma Decode_last octets b rest :
  b < 256 ->
  Decode octets 1 (percent_octet b ++ rest)
  = match utf8_code_point (octets ++ [b]) with
    | Some cp => cmap (app (UTF16EncodeCodePoint cp)) (Decode [] 0 rest)
    | None => Throw URIError
    end.
Proof.
  intros H. unfold percent_octet. cbn [app Decode]. rewrite N.eqb_refl.
  rewrite !hex_value_upper
    by (try (apply N.Div0.div_lt_upper_bound; dlia); apply N.mod_lt; dlia).
  now rewrite (octet_nibbles b H).
Qed.

Lemma Decode_more octets need b rest :
  b < 256 ->
  Decode octets (S (S need)) (percent_octet b ++ rest)
  = Decode (octets ++ [b]) (S need) rest.
Proof.
  intros H. unfold percent_octet. cbn [app Decode]. rewrite N.eqb_refl.
  rewrite !hex_value_upper
    by (try (apply N.Div0.div_lt_upper_bound; dlia); apply N.mod_lt; dlia).
  now rewrite (octet_nibbles b H).
Qed.

(** A scalar value: a code point that is not a surrogate. *)
Lemma Decode_escape cp rest :
  0x80 <= cp < 0x110000 ->
  negb ((0xD800 <=? cp) && (cp <=? 0xDFFF)) = true ->
  Decode [] 0 (escape_code_point cp ++ rest)
  = cmap (app (UTF16EncodeCodePoint cp)) (Decode [] 0 rest)
  /\ Forall not_ws (escape_code_point cp).
Proof.
  intros H Hs. unfold escape_code_point.
  destruct (N.lt_ge_cases cp 0x800) as [A | A];
    [|destruct (N.lt_ge_cases cp 0x10000) as [B | B]].
  - destruct (octets2 cp ltac:(dlia)) as [-> Hcp].
    cbn [flat_map]. rewrite app_nil_r, <- !app_assoc. split.
    + rewrite Decode_first by dlia.
      replace (leading_ones (192 + cp / 64)) with 2%nat
        by (unfold leading_ones;
            repeat match goal with
              | |- context [?a <? ?b] =>
                  destruct (N.ltb_spec a b); try dlia
              end; reflexivity).
      rewrite Decode_last by dlia. cbn [app]. now rewrite Hcp.
    + apply Forall_app; split; apply percent_octet_not_ws; dlia.
  - destruct (octets3 cp ltac:(dlia) Hs) as [-> Hcp].
    cbn [flat_map]. rewrite app_nil_r, <- !app_assoc. split.
    + rewrite Decode_first by dlia.
      replace (leading_ones (224 + cp / 64 / 64)) with 3%nat
        by (unfold leading_ones;
            repeat match goal with
              | |- context [?a <? ?b] =>
                  destruct (N.ltb_spec a b); try dlia
              end; reflexivity).
      rewrite Decode_more, Decode_last by dlia. cbn [app]. now rewrite Hcp.
    + repeat (apply Forall_app; split); apply percent_octet_not_ws; dlia.
  - destruct (octets4 cp ltac:(dlia)) as [-> Hcp].
    cbn [flat_map]. rewrite app_nil_r, <- !app_assoc. split.
    + rewrite Decode_first by dlia.
      replace (leading_ones (240 + cp / 64 / 64 / 64)) with 4%nat
        by (unfold leading_ones;
            repeat match goal with
              | |- context [?a <? ?b] =>
                  destruct (N.ltb_spec a b); try dlia
              end; reflexivity).
      rewrite !Decode_more, Decode_last by dlia. cbn [app]. now rewrite Hcp.
    + repeat (apply Forall_app; split); apply percent_octet_not_ws; dlia.
Qed.

(** ** Surrogate pairs *)

Lemma surrogate_pair lead trail :
  is_lead_surrogate lead = true -> is_trail_surrogate trail = true ->
  0x10000 <= surrogate_pair_to_code_point lead trail < 0x110000
  /\ UTF16EncodeCodePoint (surrogate_pair_to_code_point lead trail) = [lead; trail].
Proof.
  unfold is_lead_surrogate, is_trail_surrogate, surrogate_pair_to_code_point.
  intros Hl Ht. class_lia. split; [lia|].
  unfold UTF16EncodeCodePoint.
  replace (_ <? 65536) with false by (symmetry; apply N.ltb_ge; lia).
  f_equal; [|f_equal]; dlia.
Qed.

Lemma unescaped_not_surrogate c :
  uriUnescaped c = true ->
  is_lead_surrogate c = false /\ is_trail_surrogate c = false.
Proof.
  intros H. unfold uriUnescaped, is_alnum, is_digit, is_upper, is_lower in H.
  split; by_class; unfold is_lead_surrogate, is_trail_surrogate in *; class_lia.
Qed.

Lemma lead_not_trail c : is_lead_surrogate c = true -> is_trail_surrogate c = false.
Proof.
  intros H. by_class. unfold is_lead_surrogate, is_trail_surrogate in *. class_lia.
Qed.

(** [encodeURIComponent] succeeds on well-formed text; its output holds
    no white space and [decodeURIComponent] maps it back. *)
Lemma encode_decode_well_formed n :
  forall x,
    (length x <= n)%nat ->
    well_formed x = true -> Forall is_code_unit x ->
    exists e,
      encodeURIComponent x = Normal e
      /\ decodeURIComponent e = Normal x
      /\ Forall not_ws e.
Proof.
  unfold encodeURIComponent, decodeURIComponent.
  induction n as [|n IH]; intros x Hn Hw Hu.
  { destruct x; [|cbn in Hn; lia]. exists []. repeat split; constructor. }
  destruct x as [|c r]; [exists []; repeat split; constructor|].
  cbn [length] in Hn. inversion Hu as [|? ? Hc Hr]; subst.
  cbn [well_formed] in Hw. cbn [Encode].
  destruct (uriUnescaped c) eqn:U.
  { destruct (unescaped_not_surrogate c U) as [L T]. rewrite L, T in Hw.
    destruct (IH r ltac:(lia) Hw Hr) as (e & He & Hd & Hws).
    exists (c :: e). rewrite He. repeat split.
    - cbn [Decode]. rewrite (uriUnescaped_not_percent c U), Hd. reflexivity.
    - constructor; [now apply uriUnescaped_not_ws | exact Hws]. }
  destruct (is_lead_surrogate c) eqn:L.
  - rewrite (lead_not_trail c L).
    destruct r as [|d r']; [discriminate|].
    apply andb_true_iff in Hw. destruct Hw as [T Hw]. rewrite T.
    inversion Hr as [|? ? Hd' Hr']; subst. cbn [length] in Hn.
    destruct (IH r' ltac:(lia) Hw Hr') as (e & He & Hd & Hws).
    destruct (surrogate_pair c d L T) as [Hcp Hpair].
    destruct (Decode_escape (surrogate_pair_to_code_point c d) e ltac:(lia))
      as [Hdec Hnws].
    { by_class. class_lia. }
    exists (escape_code_point (surrogate_pair_to_code_point c d) ++ e).
    rewrite He. repeat split.
    + rewrite Hdec, Hd, Hpair. reflexivity.
    + apply Forall_app. now split.
  - destruct (is_trail_surrogate c) eqn:T; [discriminate|]. cbn [negb andb] in Hw.
    destruct (IH r ltac:(lia) Hw Hr) as (e & He & Hd & Hws).
    exists (escape_code_point c ++ e). rewrite He.
    destruct (N.lt_ge_cases c 128) as [A | A].
    + assert (Hesc : escape_code_point c = percent_octet c).
      { unfold escape_code_point, utf8_octets.
        replace (c <? 128) with true by (symmetry; apply N.ltb_lt; lia).
        cbn [flat_map]. apply app_nil_r. }
      rewrite Hesc. repeat split.
      * rewrite Decode_percent_octet by exact A. rewrite Hd. reflexivity.
      * apply Forall_app. split; [apply percent_octet_not_ws; lia | exact Hws].
    + unfold is_code_unit in Hc.
      destruct (Decode_escape c e ltac:(lia)) as [Hdec Hnws].
      { unfold is_lead_surrogate, is_trail_surrogate in *. by_class. class_lia. }
      repeat split.
      * rewrite Hdec, Hd. unfold UTF16EncodeCodePoint.
        replace (c <? 65536) with true by (symmetry; apply N.ltb_lt; lia).
        reflexivity.
      * apply Forall_app. now split.
Qed.

(** [Encode] raises exactly on an unpaired surrogate. *)
Lemma Encode_well_formed n :
  forall x,
    (length x <= n)%nat ->
    if well_formed x
    then exists e, Encode uriUnescaped x = Normal e
    else Encode uriUnescaped x = Throw URIError.
Proof.
  induction n as [|n IH]; intros x Hn.
  { destruct x; [|cbn in Hn; lia]. cbn. eauto. }
  destruct x as [|c r]; [cbn; eauto|].
  cbn [length] in Hn. cbn [well_formed Encode].
  destruct (uriUnescaped c) eqn:U.
  { destruct (unescaped_not_surrogate c U) as [-> ->]. cbn [negb andb].
    specialize (IH r ltac:(lia)). destruct (well_formed r).
    - destruct IH as [e ->]. cbn. eauto.
    - now rewrite IH. }
  destruct (is_lead_surrogate c) eqn:L.
  - rewrite (lead_not_trail c L). destruct r as [|d r']; [reflexivity|].
    destruct (is_trail_surrogate d); [|reflexivity]. cbn [andb length] in *.
    specialize (IH r' ltac:(lia)). destruct (well_formed r').
    + destruct IH as [e ->]. cbn. eauto.
    + now rewrite IH.
  - destruct (is_trail_surrogate c); [reflexivity|]. cbn [negb andb].
    specialize (IH r ltac:(lia)). destruct (well_formed r).
    + destruct IH as [e ->]. cbn. eauto.
    + now rewrite IH.
Qed.

(** X21: the round trip of the QR codec holds for every identifier of
    well-formed UTF-16 text, not only for ASCII: when the identifier is
    not empty, has no unpaired surrogate and no leading or trailing white
    space, building the QR value succeeds and parsing it gives the
    identifier back. *)
Theorem qr_roundtrip_well_formed x :
  x <> [] ->
  well_formed x = true -> Forall is_code_unit x ->
  trim x = x ->
  bind (Qr.buildChillerQrValue x) Qr.parseChillerIdFromQr = Normal (Some x).
Proof.
  intros Hne Hw Hu Ht.
  destruct (encode_decode_well_formed (length x) x (le_n _) Hw Hu)
    as (e & He & Hd & Hws).
  unfold Qr.buildChillerQrValue. rewrite He. cbn [cmap bind].
  assert (Hp : Forall not_ws Qr.QR_PREFIX).
  { unfold not_ws. apply Forall_forall. intros c Hc.
    vm_compute in Hc. intuition (subst; reflexivity). }
  rewrite (QrSpec.parse_deep_link (Qr.QR_PREFIX ++ e) e).
  - rewrite Hd. cbn [bind]. rewrite Ht. destruct x; [congruence | reflexivity].
  - apply trim_Forall. apply Forall_app. now split.
Qed.

Lemma qr_roundtrip_well_formed_witness :
  bind (Qr.buildChillerQrValue (0xD83D :: 0xDE00 :: 8364 :: 233 :: lit " K-7"))
       Qr.parseChillerIdFromQr
  = Normal (Some (0xD83D :: 0xDE00 :: 8364 :: 233 :: lit " K-7")).
Proof.
  apply qr_roundtrip_well_formed.
  - discriminate.
  - vm_compute; reflexivity.
  - unfold is_code_unit. repeat constructor.
  - vm_compute; reflexivity.
Defined.

(** X22: [buildChillerQrValue] is not total.  It raises [URIError]
    exactly when the identifier holds an unpaired surrogate, and returns
    a QR value that starts with the scheme prefix otherwise. *)
Theorem buildChillerQrValue_raises_iff x :
  (Qr.buildChillerQrValue x = Throw URIError <-> well_formed x = false)
  /\ (well_formed x = true ->
      exists e, Qr.buildChillerQrValue x = Normal (Qr.QR_PREFIX ++ e)).
Proof.
  pose proof (Encode_well_formed (length x) x (le_n _)) as H.
  unfold Qr.buildChillerQrValue, encodeURIComponent.
  destruct (well_formed x).
  - destruct H as [e ->]. split; [split; discriminate|].
    intros _. exists e. reflexivity.
  - rewrite H. split; [split; reflexivity | discriminate].
Qed.

Lemma buildChillerQrValue_raises_iff_witness :
  well_formed (lit "ab" ++ [0xD800]) = false
  /\ Qr.buildChillerQrValue (lit "ab" ++ [0xD800]) = Throw URIError.
Proof.
  split; [reflexivity|].
  apply (proj1 (buildChillerQrValue_raises_iff (lit "ab" ++ [0xD800]))).
  reflexivity.
Defined.

End UriGeneral.
